(** * The Stylus evaluator (lib/visitor/evaluator.js) over an explicit object store

    The evaluator walks a tree of mutable node objects and rewrites it in
    place.  Node objects live in a store addressed by stable indices; a JS
    reference is an index, [undefined] is [None].  Every method of
    [Evaluator.prototype] is a function of the store and of the evaluator's
    own fields, threaded through a small state-and-exception monad. *)

From stdpp Require Import gmap strings list.
From Stdlib Require Import ZArith.

Set Warnings "-register-all".

(** ** References and node objects *)

Abbreviation loc := nat.

(** A JS value that is a node reference or [undefined]. *)
Abbreviation value := (option nat).

Module nodes.

(** The node variants the evaluator has a visit method for.  [A] is the type
    of a child slot: a [value] for an object in the store.  [parent] of a
    [Block] is a back-reference, never a child. *)
Inductive shape (A : Type) : Type :=
| Color (c : string)
| HSLA (c : string)
| Literal (s : string)
| Boolean (b : bool)
| Unit (val : Z) (type : string)
| String (s : string)
| Null
| Function (name : string) (params : A) (block : A)
| Group (nodes : list A)
| Selector (block : A)
| Charset (s : string)
| Call (name : string) (args : A)
| Ident (name : string) (val : A)
| BinOp (op : string) (left : A) (right : A)
| UnaryOp (op : string) (expr : A)
| Ternary (cond : A) (trueExpr : A) (falseExpr : A)
| Expression (nodes : list A)
| Property (name : string) (expr : A)
| Root (nodes : list A)
| Block (parent : value) (nodes : list A)
| Import (path : string).

Arguments Color {A}. Arguments HSLA {A}. Arguments Literal {A}.
Arguments Boolean {A}. Arguments Unit {A}. Arguments String {A}.
Arguments Null {A}. Arguments Function {A}. Arguments Group {A}.
Arguments Selector {A}. Arguments Charset {A}. Arguments Call {A}.
Arguments Ident {A}. Arguments BinOp {A}. Arguments UnaryOp {A}.
Arguments Ternary {A}. Arguments Expression {A}. Arguments Property {A}.
Arguments Root {A}. Arguments Block {A}. Arguments Import {A}.

(** Every node carries [lineno] and [source]; either may be [undefined]
    on a node the evaluator builds itself. *)
Record node := Node {
  lineno : option nat;
  source : option string;
  shp : shape value
}.

(** The three constant nodes [nodes.null], [nodes.true], [nodes.false]: the
    source compares against them by identity, so they have fixed places. *)
Definition null : loc := 0.
Definition true : loc := 1.
Definition false : loc := 2.

Definition constant (l : loc) : bool := Nat.ltb l 3.

Definition of_bool (b : bool) : loc := if b then true else false.

End nodes.

Abbreviation node := nodes.node.

(** The store: an arena of node objects.  Objects are never freed. *)
Abbreviation store := (list node).

Definition initial_store : store :=
  [ nodes.Node None None nodes.Null;
    nodes.Node None None (nodes.Boolean true);
    nodes.Node None None (nodes.Boolean false) ].

(** Syntax trees before they are objects: what a parser or a native function
    hands over.  [Ref] points at an object that exists already. *)
Inductive ast :=
| Ref (v : value)
| New (lineno : option nat) (source : option string) (s : nodes.shape ast).

Definition push_node (n : node) (h : store) : loc * store := (length h, h ++ [n]).

(** Objects for a tree: children first, left to right, then the node. *)
Fixpoint alloc (t : ast) (h : store) {struct t} : value * store :=
  let allocs := fix allocs (ts : list ast) (h : store) {struct ts} : list value * store :=
    match ts with
    | [] => ([], h)
    | t :: ts => let '(v, h) := alloc t h in
                 let '(vs, h) := allocs ts h in (v :: vs, h)
    end in
  match t with
  | Ref v => (v, h)
  | New ln src s =>
    let '(s', h) :=
      match s with
      | nodes.Color c => (nodes.Color c, h)
      | nodes.HSLA c => (nodes.HSLA c, h)
      | nodes.Literal x => (nodes.Literal x, h)
      | nodes.Boolean b => (nodes.Boolean b, h)
      | nodes.Unit z u => (nodes.Unit z u, h)
      | nodes.String x => (nodes.String x, h)
      | nodes.Null => (nodes.Null, h)
      | nodes.Function nm ps b =>
        let '(ps, h) := alloc ps h in let '(b, h) := alloc b h in (nodes.Function nm ps b, h)
      | nodes.Group ns => let '(ns, h) := allocs ns h in (nodes.Group ns, h)
      | nodes.Selector b => let '(b, h) := alloc b h in (nodes.Selector b, h)
      | nodes.Charset x => (nodes.Charset x, h)
      | nodes.Call nm a => let '(a, h) := alloc a h in (nodes.Call nm a, h)
      | nodes.Ident nm v => let '(v, h) := alloc v h in (nodes.Ident nm v, h)
      | nodes.BinOp op l r =>
        let '(l, h) := alloc l h in let '(r, h) := alloc r h in (nodes.BinOp op l r, h)
      | nodes.UnaryOp op e => let '(e, h) := alloc e h in (nodes.UnaryOp op e, h)
      | nodes.Ternary c t f =>
        let '(c, h) := alloc c h in let '(t, h) := alloc t h in
        let '(f, h) := alloc f h in (nodes.Ternary c t f, h)
      | nodes.Expression ns => let '(ns, h) := allocs ns h in (nodes.Expression ns, h)
      | nodes.Property nm e => let '(e, h) := alloc e h in (nodes.Property nm e, h)
      | nodes.Root ns => let '(ns, h) := allocs ns h in (nodes.Root ns, h)
      | nodes.Block p ns => let '(ns, h) := allocs ns h in (nodes.Block p ns, h)
      | nodes.Import p => (nodes.Import p, h)
      end in
    let '(l, h) := push_node (nodes.Node ln src s') h in (Some l, h)
  end.

Fixpoint allocs (ts : list ast) (h : store) : list value * store :=
  match ts with
  | [] => ([], h)
  | t :: ts => let '(v, h) := alloc t h in
               let '(vs, h) := allocs ts h in (v :: vs, h)
  end.

(** ** Reading and writing fields of an object *)

Definition shape_of (h : store) (v : value) : option (nodes.shape value) :=
  l ← v; nodes.shp <$> h !! l.

(** [o.nodes] for the variants that have a node sequence. *)
Definition shape_nodes (s : nodes.shape value) : option (list value) :=
  match s with
  | nodes.Group ns | nodes.Expression ns | nodes.Root ns | nodes.Block _ ns => Some ns
  | _ => None
  end.

Definition with_nodes (ns : list value) (s : nodes.shape value) : nodes.shape value :=
  match s with
  | nodes.Group _ => nodes.Group ns
  | nodes.Expression _ => nodes.Expression ns
  | nodes.Root _ => nodes.Root ns
  | nodes.Block p _ => nodes.Block p ns
  | _ => s
  end.

Definition get_nodes (h : store) (v : value) : option (list value) :=
  shape_of h v ≫= shape_nodes.

(** [a[i]]: [undefined] out of range. *)
Definition index (ns : list value) (i : nat) : value := mjoin (ns !! i).

(** [a[i] = v]: JS extends the array when [i] is past its end. *)
Definition store_at (ns : list value) (i : nat) (v : value) : list value :=
  if decide (i < length ns) then <[i := v]> ns
  else ns ++ replicate (i - length ns) None ++ [v].

(** In-place update of the object at [l]. *)
Definition update (l : loc) (f : nodes.shape value → nodes.shape value) (h : store) : store :=
  alter (λ n, nodes.Node (nodes.lineno n) (nodes.source n) (f (nodes.shp n))) l h.

Definition set_nodes (l : loc) (ns : list value) : store → store := update l (with_nodes ns).

Definition set_block (v : value) (s : nodes.shape value) : nodes.shape value :=
  match s with nodes.Selector _ => nodes.Selector v | _ => s end.
Definition set_args (v : value) (s : nodes.shape value) : nodes.shape value :=
  match s with nodes.Call nm _ => nodes.Call nm v | _ => s end.
Definition set_val (v : value) (s : nodes.shape value) : nodes.shape value :=
  match s with nodes.Ident nm _ => nodes.Ident nm v | _ => s end.
Definition set_expr (v : value) (s : nodes.shape value) : nodes.shape value :=
  match s with nodes.Property nm _ => nodes.Property nm v | _ => s end.
Definition set_parent (v : value) (s : nodes.shape value) : nodes.shape value :=
  match s with nodes.Block _ ns => nodes.Block v ns | _ => s end.
Definition set_unit (z : Z) (s : nodes.shape value) : nodes.shape value :=
  match s with nodes.Unit _ u => nodes.Unit z u | _ => s end.

(** Traversal of the child slots of a shape, left to right, threading the
    store.  The [parent] back-reference of a [Block] is not a child. *)
Section traverse.
Context (f : value → store → option (value * store)).

Fixpoint traverse_list (vs : list value) (h : store) : option (list value * store) :=
  match vs with
  | [] => Some ([], h)
  | v :: vs =>
    '(v', h) ← f v h; '(vs', h) ← traverse_list vs h; Some (v' :: vs', h)
  end.

Definition traverse (s : nodes.shape value) (h : store) : option (nodes.shape value * store) :=
  match s with
  | nodes.Function nm ps b =>
    '(ps, h) ← f ps h; '(b, h) ← f b h; Some (nodes.Function nm ps b, h)
  | nodes.Group ns => '(ns, h) ← traverse_list ns h; Some (nodes.Group ns, h)
  | nodes.Selector b => '(b, h) ← f b h; Some (nodes.Selector b, h)
  | nodes.Call nm a => '(a, h) ← f a h; Some (nodes.Call nm a, h)
  | nodes.Ident nm v => '(v, h) ← f v h; Some (nodes.Ident nm v, h)
  | nodes.BinOp op l r =>
    '(l, h) ← f l h; '(r, h) ← f r h; Some (nodes.BinOp op l r, h)
  | nodes.UnaryOp op e => '(e, h) ← f e h; Some (nodes.UnaryOp op e, h)
  | nodes.Ternary c t e =>
    '(c, h) ← f c h; '(t, h) ← f t h; '(e, h) ← f e h; Some (nodes.Ternary c t e, h)
  | nodes.Expression ns => '(ns, h) ← traverse_list ns h; Some (nodes.Expression ns, h)
  | nodes.Property nm e => '(e, h) ← f e h; Some (nodes.Property nm e, h)
  | nodes.Root ns => '(ns, h) ← traverse_list ns h; Some (nodes.Root ns, h)
  | nodes.Block p ns => '(ns, h) ← traverse_list ns h; Some (nodes.Block p ns, h)
  | s => Some (s, h)
  end.
End traverse.

(** Modelled from the spec: [clone() -> Node] of the node capability set
    (lib/nodes is not part of the sources), "deep copy, independent
    lifetime": every object reachable through child slots is copied into a
    new object.  The three constant nodes are kept, since the evaluator
    recognises them by identity ([nodes.null == ident.val]); an [undefined]
    slot stays [undefined].  The recursion is bounded by [n]: the object
    graph may be cyclic, on which a deep copy does not return. *)
Fixpoint clone (n : nat) (v : value) (h : store) : option (value * store) :=
  match n with
  | 0 => None
  | S n =>
    match v with
    | None => Some (None, h)
    | Some l =>
      if nodes.constant l then Some (Some l, h)
      else match h !! l with
           | None => Some (Some l, h)
           | Some o =>
             '(s, h) ← traverse (clone n) (nodes.shp o) h;
             let '(l', h) := push_node (nodes.Node (nodes.lineno o) (nodes.source o) s) h in
             Some (Some l', h)
           end
    end
  end.

(** ** Errors *)

(** A thrown [Error] object: its message and the two decorations
    [Evaluator.prototype.visit] attaches. *)
Record error := Error {
  message : string;
  str : option string;
  stylusStack : option string
}.

Definition new_Error (msg : string) : error := Error msg None None.

(** A [TypeError] of the JS runtime (property access on [undefined], call of
    a non-function). *)
Definition TypeError (what : string) : error := new_Error ("TypeError: " +:+ what).

(** JS truthiness of a string-or-undefined, and [a || b] on such values. *)
Definition truthy (s : option string) : bool :=
  match s with Some s => negb (String.eqb s "") | None => false end.

Definition or_else (a b : option string) : option string := if truthy a then a else b.

(** ** The lexical environment *)

(** Modelled from the spec: lib/stack (Stack, Frame, Scope) is not part of the
    sources.  A frame owns one scope (name to bound node, last write wins)
    and a back-reference to its block; the stack is pushed and popped at the
    top (the head of the list); [lookup] scans from the top frame down and
    returns the first binding found, [undefined] when there is none. *)
Record frame := Frame {
  scope : gmap string value;
  block : value
}.

(** Modelled from the spec: [new Frame(block)], a frame with an empty scope. *)
Definition new_Frame (b : value) : frame := Frame ∅ b.

(** Modelled from the spec: [stack.currentFrame], the top frame. *)
Definition currentFrame (stack : list frame) : option frame := head stack.

(** Modelled from the spec: [stack.lookup(name)], which "scans from top to
    bottom, returns the first bound node found or none". *)
Fixpoint Stack_lookup (name : string) (stack : list frame) : value :=
  match stack with
  | [] => None
  | f :: stack =>
    match scope f !! name with
    | Some v => v
    | None => Stack_lookup name stack
    end
  end.

(** Modelled from the spec: [frame.scope.add(ident)] binds [ident.name] to
    [ident.val], "overwriting any prior binding of the same name in that
    scope". *)
Definition Scope_add (name : string) (val : value) (f : frame) : frame :=
  Frame (<[name := val]> (scope f)) (block f).

(** ** Native functions and the evaluator's state *)

(** Modelled from the spec: a native callable "accepts positional
    first-reduced argument values and returns a Node".  It reads the store
    and hands back a tree to be allocated (or a reference), or throws. *)
Definition native := store → list value → error + ast.

(** The object store together with the fields of the [Evaluator] object. *)
Record evaluator := Evaluator {
  heap : store;
  root : value;
  stack : list frame;
  functions : gmap string native;
  paths : list string;
  lineno : option nat;
  return_ : bool;
  calling : option string;
  importPath : option string;
  rootIndex : option nat
}.

Definition set_heap (h : store) (s : evaluator) : evaluator :=
  Evaluator h (root s) (stack s) (functions s) (paths s) (lineno s) (return_ s)
            (calling s) (importPath s) (rootIndex s).
Definition set_stack (k : list frame) (s : evaluator) : evaluator :=
  Evaluator (heap s) (root s) k (functions s) (paths s) (lineno s) (return_ s)
            (calling s) (importPath s) (rootIndex s).
Definition set_paths (ps : list string) (s : evaluator) : evaluator :=
  Evaluator (heap s) (root s) (stack s) (functions s) ps (lineno s) (return_ s)
            (calling s) (importPath s) (rootIndex s).
Definition set_lineno (n : option nat) (s : evaluator) : evaluator :=
  Evaluator (heap s) (root s) (stack s) (functions s) (paths s) n (return_ s)
            (calling s) (importPath s) (rootIndex s).
Definition set_return (b : bool) (s : evaluator) : evaluator :=
  Evaluator (heap s) (root s) (stack s) (functions s) (paths s) (lineno s) b
            (calling s) (importPath s) (rootIndex s).
Definition set_calling (c : option string) (s : evaluator) : evaluator :=
  Evaluator (heap s) (root s) (stack s) (functions s) (paths s) (lineno s) (return_ s)
            c (importPath s) (rootIndex s).
Definition set_importPath (p : option string) (s : evaluator) : evaluator :=
  Evaluator (heap s) (root s) (stack s) (functions s) (paths s) (lineno s) (return_ s)
            (calling s) p (rootIndex s).
Definition set_rootIndex (i : option nat) (s : evaluator) : evaluator :=
  Evaluator (heap s) (root s) (stack s) (functions s) (paths s) (lineno s) (return_ s)
            (calling s) (importPath s) i.

(** ** The monad of evaluator methods *)

Inductive outcome (A : Type) : Type :=
| Ret (a : A) (s : evaluator)      (* normal completion *)
| Throw (e : error) (s : evaluator) (* an exception in flight *)
| Timeout.                          (* the recursion bound was reached *)
Arguments Ret {A}. Arguments Throw {A}. Arguments Timeout {A}.

Definition M (A : Type) : Type := evaluator → outcome A.

Definition ret {A} (a : A) : M A := λ s, Ret a s.
Definition throw {A} (e : error) : M A := λ s, Throw e s.
Definition timeout {A} : M A := λ _, Timeout.
Definition bind {A B} (m : M A) (k : A → M B) : M B :=
  λ s, match m s with
       | Ret a s => k a s
       | Throw e s => Throw e s
       | Timeout => Timeout
       end.
Definition gets {A} (f : evaluator → A) : M A := λ s, Ret (f s) s.
Definition modify (f : evaluator → evaluator) : M unit := λ s, Ret tt (f s).

Declare Scope eval_scope.
Delimit Scope eval_scope with eval.
Notation "'let*' x := m 'in' k" := (bind m (λ x, k))
  (at level 10, x pattern, m at level 100, k at level 200) : eval_scope.
Notation "m ;; k" := (bind m (λ _, k))
  (at level 100, k at level 200, right associativity) : eval_scope.
Open Scope eval_scope.

(** Property access on a value that may be [undefined]. *)
Definition deref {A} (what : string) (o : option A) : M A :=
  match o with Some a => ret a | None => throw (TypeError what) end.

(** [new X(...)]: a new object in the store. *)
Definition new (ln : option nat) (src : option string) (s : nodes.shape value) : M loc :=
  λ st, let '(l, h) := push_node (nodes.Node ln src s) (heap st) in Ret l (set_heap h st).

(** A tree handed over by a collaborator becomes objects. *)
Definition materialize (t : ast) : M value :=
  λ st, let '(v, h) := alloc t (heap st) in Ret v (set_heap h st).

(** The result of a collaborator: a value, or an error that is thrown. *)
Definition lift {A} (r : error + A) : M A :=
  match r with inl e => throw e | inr a => ret a end.

(** ** Collaborators

    The node capabilities, the builtin registry, the path search, the file
    system and the parser are not part of the sources; the evaluator is
    parametric in them.  A capability reads the store and hands back a tree
    (or a reference to an object), or throws. *)
Record collaborators := Collaborators {
  (** [node.toBoolean()]: the truthiness of a node. *)
  toBoolean : store → loc → bool;
  (** [left.coerce(right)] *)
  coerce : store → loc → value → error + ast;
  (** [left.operate(op, right)] *)
  operate : store → string → loc → value → error + ast;
  (** string conversion of a node inside an error message *)
  inspect : store → value → string;
  (** the builtin registry, [require('../functions')] *)
  bifs : gmap string native;
  (** [utils.lookup(path, paths)] *)
  utils_lookup : string → list string → option string;
  (** [require('path').dirname] *)
  dirname : string → string;
  (** [fs.readFileSync(path, 'utf8')] *)
  readFileSync : string → string;
  (** [stylus.parse(str, {filename, root})]: the statements it appends to root *)
  parse : string → string → error + list ast;
  (** [stack.toString()] *)
  Stack_toString : store → list frame → string
}.

(** ** The methods of [Evaluator.prototype] *)

(** [ToInt32] of the JS runtime, on integers: wrap-around into 32 bits, signed. *)
Definition to_int32 (z : Z) : Z := ((z + 2 ^ 31) mod 2 ^ 32 - 2 ^ 31)%Z.

(** [/suffix$/.test(s)] for a literal suffix. *)
Definition ends_with (suffix s : string) : bool :=
  let n := String.length suffix in
  let m := String.length s in
  (n <=? m)%nat && String.eqb (String.substring (m - n) n s) suffix.

(** The one-character string holding a double quote. *)
Definition double_quote : string := String (Ascii.ascii_of_nat 34) EmptyString.

(** What the callee of a call resolves to: a native function or a node. *)
Inductive callee :=
| Native (f : native)
| Node (v : value).

(** [v instanceof nodes.K]: [v] refers to an object of variant [K]. *)
Definition instanceof (h : store) (v : value) (k : nodes.shape value → bool) : bool :=
  match shape_of h v with Some s => k s | None => Datatypes.false end.

Definition is_Null (s : nodes.shape value) : bool :=
  match s with nodes.Null => Datatypes.true | _ => Datatypes.false end.
Definition is_Function (s : nodes.shape value) : bool :=
  match s with nodes.Function _ _ _ => Datatypes.true | _ => Datatypes.false end.
Definition is_Expression (s : nodes.shape value) : bool :=
  match s with nodes.Expression _ => Datatypes.true | _ => Datatypes.false end.
Definition is_Ident (s : nodes.shape value) : bool :=
  match s with nodes.Ident _ _ => Datatypes.true | _ => Datatypes.false end.
Definition is_Unit (s : nodes.shape value) : bool :=
  match s with nodes.Unit _ _ => Datatypes.true | _ => Datatypes.false end.

(** [args.nodes[i] || node.val] *)
Definition bound_value (argv : list value) (i : nat) (default : value) : value :=
  match index argv i with Some a => Some a | None => default end.

(** [err.str = err.str || node.source;
     err.stylusStack = err.stylusStack || this.stack.toString()] *)
Definition decorate (err : error) (src : option string) (trace : string) : error :=
  Error (message err) (or_else (str err) src) (or_else (stylusStack err) (Some trace)).

Section Evaluator.
Context (C : collaborators).
(** The bound on nested visits, also the bound of a deep copy and of the
    top-level statement loop. *)
Context (fuel : nat).
(** [this.visit], the recursive knot. *)
Context (visit : value → M value).

(** The shape of the object a value refers to; a property access on
    [undefined] is a TypeError. *)
Definition the_shape (what : string) (v : value) : M (nodes.shape value) :=
  λ st, deref what (shape_of (heap st) v) st.

(** [o.nodes], required to be an array. *)
Definition nodes_of (v : value) : M (list value) :=
  λ st, deref "nodes" (get_nodes (heap st) v) st.

(** An assignment to a field of the object at [l]. *)
Definition write (l : loc) (f : nodes.shape value → nodes.shape value) : M unit :=
  modify (λ st, set_heap (update l f (heap st)) st).

(** [this.stack.currentFrame] *)
Definition the_currentFrame : M frame :=
  λ st, deref "currentFrame" (currentFrame (stack st)) st.

(** [this.stack.currentFrame.scope.add(ident)] *)
Definition scope_add (name : string) (val : value) : M unit :=
  let* f := the_currentFrame in
  modify (λ st, set_stack (Scope_add name val f :: tail (stack st)) st).

(** [this.stack.push(frame)] and [this.stack.pop()] *)
Definition stack_push (f : frame) : M unit := modify (λ st, set_stack (f :: stack st) st).
Definition stack_pop : M unit := modify (λ st, set_stack (tail (stack st)) st).

(** Modelled from the spec: the capability "reduce to first value" of
    lib/nodes; on an expression it "yields nodes[0]", any other node is its
    own first value. *)
Definition first (v : value) : M value :=
  let* s := the_shape "first" v in
  match s with
  | nodes.Expression ns => ret (index ns 0)
  | _ => ret v
  end.

(** Modelled from the spec: [toBoolean() -> Boolean] of the node capability
    set.  The evaluator compares the result with [nodes.true] by identity, so
    it is one of the two constants; which one is for the collaborator to say. *)
Definition toBoolean_node (v : value) : M value :=
  let* l := deref "toBoolean" v in
  let* h := gets heap in
  ret (Some (nodes.of_bool (toBoolean C h l))).

(** [node.clone()] *)
Definition clone_node (v : value) : M value :=
  let* _ := deref "clone" v in
  λ st, match clone fuel v (heap st) with
        | Some (v', h) => Ret v' (set_heap h st)
        | None => Timeout
        end.

(** Modelled from the spec: string conversion inside the message of the
    required-argument error, which "names the parameter and the function". *)
Definition toString (h : store) (v : value) : string :=
  match shape_of h v with
  | Some (nodes.Ident nm _) => nm
  | Some (nodes.Function nm _ _) => nm
  | _ => inspect C h v
  end.

(** [for (var i = 0, len = o.nodes.length; i < len; ++i)
      o.nodes[i] = this.visit(o.nodes[i]);]  with [count] iterations left *)
Fixpoint visit_slots (o : loc) (i count : nat) : M unit :=
  match count with
  | 0 => ret tt
  | S count =>
    let* ns := nodes_of (Some o) in
    let* v := visit (index ns i) in
    let* ns := nodes_of (Some o) in
    write o (with_nodes (store_at ns i v)) ;;
    visit_slots o (S i) count
  end.

(** The visit methods take the object visited and the fields the dispatch
    read from it; a field the evaluator writes is read again where the source
    reads it after the write. *)
Definition visitGroup (group : loc) : M value :=
  let* ns := nodes_of (Some group) in
  visit_slots group 0 (length ns) ;;
  ret (Some group).

Definition visitSelector (selector : loc) (blk : value) : M value :=
  let* b := visit blk in
  write selector (set_block b) ;;
  ret (Some selector).

Definition visitExpression (expr : loc) : M value :=
  let* ns := nodes_of (Some expr) in
  visit_slots expr 0 (length ns) ;;
  ret (Some expr).

Definition visitBlock (blk : loc) : M value :=
  stack_push (new_Frame (Some blk)) ;;
  let* ns := nodes_of (Some blk) in
  visit_slots blk 0 (length ns) ;;
  stack_pop ;;
  ret (Some blk).

(** [for (var i = 0; i < block.nodes.length; ++i)]: the length is read
    again on every round. *)
Fixpoint visitRoot_loop (budget : nat) (blk : loc) (i : nat) : M unit :=
  match budget with
  | 0 => timeout
  | S budget =>
    let* ns := nodes_of (Some blk) in
    if decide (i < length ns) then
      modify (set_rootIndex (Some i)) ;;
      let* ns := nodes_of (Some blk) in
      let* v := visit (index ns i) in
      let* ns := nodes_of (Some blk) in
      write blk (with_nodes (store_at ns i v)) ;;
      visitRoot_loop budget blk (S i)
    else ret tt
  end.

Definition visitRoot (blk : loc) : M value :=
  visitRoot_loop fuel blk 0 ;;
  ret (Some blk).

(** [body.nodes.forEach(function(node){
      this.stack.currentFrame.block.nodes.push(node); }, this)] *)
Fixpoint invoke_forEach (body : value) (i count : nat) : M unit :=
  match count with
  | 0 => ret tt
  | S count =>
    let* ns := nodes_of body in
    let* f := the_currentFrame in
    let* target := nodes_of (block f) in
    let* b := deref "block" (block f) in
    write b (with_nodes (target ++ [index ns i])) ;;
    invoke_forEach body (S i) count
  end.

Definition invoke (body : value) : M value :=
  let* r := gets return_ in
  let* ns := nodes_of body in
  if r then
    ret (match ns with [] => None | _ => index ns (length ns - 1) end)
  else
    invoke_forEach body 0 (length ns) ;;
    ret (Some nodes.null).

(** The callback of [fn.params.nodes.forEach] in [invokeFunction], over
    the parameters from index [i] on.  A parameter is an [Ident]; on any
    other object the model stops with a TypeError. *)
Fixpoint bind_params (fn : loc) (args : value) (params : list value) (i : nat) : M unit :=
  match params with
  | [] => ret tt
  | node :: params =>
    let* argv := nodes_of args in
    let* s := the_shape "val" node in
    match s with
    | nodes.Ident _ default =>
      let val := bound_value argv i default in
      let* node := clone_node node in
      let* l := deref "val" node in
      write l (set_val val) ;;
      let* h := gets heap in
      if instanceof h val is_Null then
        throw (new_Error ("argument " +:+ toString h node +:+ " required for "
                          +:+ toString h (Some fn)))
      else
        let* s := the_shape "name" node in
        match s with
        | nodes.Ident name val => scope_add name val
        | _ => throw (TypeError "name")
        end ;;
        bind_params fn args params (S i)
    | _ => throw (TypeError "parameter is not an identifier")
    end
  end.

Definition invokeFunction (fn : loc) (args : value) : M value :=
  let* s := the_shape "block" (Some fn) in
  match s with
  | nodes.Function _ params blk =>
    let* body := clone_node blk in
    let* bs := the_shape "parent" body in
    let parent := match bs with nodes.Block p _ => p | _ => None end in
    let* blk' := new None None (nodes.Block parent []) in
    let* b := deref "parent" body in
    write b (set_parent (Some blk')) ;;
    stack_push (new_Frame (Some blk')) ;;
    let* ps := nodes_of params in
    bind_params fn args ps 0 ;;
    let* body := visit body in
    stack_pop ;;
    invoke body
  | _ => throw (TypeError "not a function")
  end.

(** [args.nodes.map(function(node){ return node.first; })] *)
Fixpoint firsts (vs : list value) : M (list value) :=
  match vs with
  | [] => ret []
  | v :: vs => let* x := first v in let* xs := firsts vs in ret (x :: xs)
  end.

Definition invokeBuiltin (fn : native) (args : value) : M value :=
  let* ns := nodes_of args in
  let* args := firsts ns in
  let* h := gets heap in
  let* t := lift (fn h args) in
  let* body := materialize t in
  let* h := gets heap in
  let* body := if instanceof h body is_Expression then ret body
               else let* e := new None None (nodes.Expression [body]) in ret (Some e) in
  invoke body.

Definition literalCall (call : loc) (args : value) : M value :=
  let* a := visit args in
  write call (set_args a) ;;
  ret (Some call).

(** [this.stack.lookup(name) || this.functions[name] || bifs[name]] *)
Definition lookupFunction (name : string) : M callee :=
  λ st, match Stack_lookup name (stack st) with
        | Some l => Ret (Node (Some l)) st
        | None =>
          match functions st !! name with
          | Some f => Ret (Native f) st
          | None => match bifs C !! name with
                    | Some f => Ret (Native f) st
                    | None => Ret (Node None) st
                    end
          end
        end.

Definition visitCall (call : loc) (name : string) (args : value) : M value :=
  let* fn := lookupFunction name in
  match fn with
  | Node None => literalCall call args
  | _ =>
    modify (set_calling (Some name)) ;;
    let* h := gets heap in
    let fn := match fn with
              | Node v => match shape_of h v with
                          | Some (nodes.Expression ns) => Node (index ns 0)
                          | _ => fn
                          end
              | Native _ => fn
              end in
    let* saved := gets return_ in
    modify (set_return Datatypes.true) ;;
    let* args := visit args in
    modify (set_return saved) ;;
    match fn with
    | Native f => invokeBuiltin f args
    | Node v =>
      let* h := gets heap in
      match v with
      | Some l => if instanceof h v is_Function then invokeFunction l args else ret None
      | None => ret None
      end
    end
  end.

Definition visitIdent (ident : loc) (name : string) (val : value) : M value :=
  if decide (val = Some nodes.null) then
    let* v := gets (λ st, Stack_lookup name (stack st)) in
    match v with
    | Some _ => visit v
    | None => ret (Some ident)
    end
  else
    let* saved := gets return_ in
    modify (set_return Datatypes.true) ;;
    let* v := visit val in
    write ident (set_val v) ;;
    modify (set_return saved) ;;
    let* s := the_shape "val" (Some ident) in
    match s with
    | nodes.Ident name val => scope_add name val ;; ret val
    | _ => throw (TypeError "val")
    end.

Definition isDefined (n : value) : M value :=
  let* h := gets heap in
  match shape_of h n with
  | Some (nodes.Ident name _) =>
    let* v := gets (λ st, Stack_lookup name (stack st)) in
    let* b := new None None (nodes.Boolean (bool_decide (is_Some v))) in
    ret (Some b)
  | _ => throw (new_Error ("invalid " +:+ double_quote +:+ "is defined" +:+ double_quote
                           +:+ " check on non-variable " +:+ toString h n))
  end.

(** [['||', '&&', 'is a'].indexOf(op)] finds [op]. *)
Definition ignore (op : string) : bool :=
  String.eqb op "||" || String.eqb op "&&" || String.eqb op "is a".

Definition visitBinOp (op : string) (left right : value) : M value :=
  if String.eqb "is defined" op then isDefined left else
  let* saved := gets return_ in
  modify (set_return Datatypes.true) ;;
  let* l := visit left in
  let* left := first l in
  let* r := visit right in
  let* right := first r in
  modify (set_return saved) ;;
  let* right :=
    if negb (ignore op) then
      let* l := deref "coerce" left in
      let* h := gets heap in
      let* t := lift (coerce C h l right) in
      materialize t
    else ret right in
  let* l := deref "operate" left in
  let* h := gets heap in
  let* t := lift (operate C h op l right) in
  let* res := materialize t in
  visit res.

(** Modelled from the spec: [utils.assertType(node, nodes.Unit)], "the
    operand must be a numeric-unit node (fail otherwise with a type
    error)". *)
Definition assertType_Unit (n : value) : M unit :=
  let* h := gets heap in
  if instanceof h n is_Unit then ret tt
  else throw (new_Error ("expected Unit, but got " +:+ inspect C h n)).

Definition visitUnaryOp (op : string) (expr : value) : M value :=
  let* e := visit expr in
  let* n := first e in
  (if negb (String.eqb "!" op) then assertType_Unit n else ret tt) ;;
  if String.eqb op "!" then
    let* b := toBoolean_node n in
    let* l := deref "negate" b in
    ret (Some (nodes.of_bool (negb (bool_decide (l = nodes.true)))))
  else
    let* s := the_shape "val" n in
    let* l := deref "val" n in
    match s with
    | nodes.Unit z _ =>
      (if String.eqb op "-" then write l (set_unit (- z))
       else if String.eqb op "+" then write l (set_unit z)
       else if String.eqb op "~" then write l (set_unit (Z.lnot (to_int32 z)))
       else ret tt) ;;
      ret n
    | _ => ret n
    end.

Definition visitTernary (cond trueExpr falseExpr : value) : M value :=
  let* c := visit cond in
  let* ok := toBoolean_node c in
  if decide (Some nodes.true = ok) then visit trueExpr else visit falseExpr.

Definition visitProperty (prop : loc) (name : string) (expr : value) : M value :=
  let* fn := gets (λ st, Stack_lookup name (stack st)) in
  let* h := gets heap in
  let call := instanceof h fn is_Function in
  let* c := gets calling in
  let literal := bool_decide (Some name = c) in
  if call && negb literal then
    modify (set_calling (Some name)) ;;
    let* l := new None None (nodes.Call name expr) in
    let* r := visit (Some l) in
    modify (set_calling None) ;;
    ret r
  else
    let* saved := gets return_ in
    modify (set_return Datatypes.true) ;;
    let* e := visit expr in
    write prop (set_expr e) ;;
    modify (set_return saved) ;;
    ret (Some prop).

(** [root.push(node)] for every node of a list, in order. *)
Fixpoint push_all (r : value) (vs : list value) : M unit :=
  match vs with
  | [] => ret tt
  | v :: vs =>
    let* ns := nodes_of r in
    let* l := deref "push" r in
    write l (with_nodes (ns ++ [v])) ;;
    push_all r vs
  end.

(** The statements the parser builds, as objects. *)
Definition materialize_all (ts : list ast) : M (list value) :=
  λ st, let '(vs, h) := allocs ts (heap st) in Ret vs (set_heap h st).

Definition visitImport (import : loc) (path : string) : M value :=
  let* r := gets root in
  let* i := gets rootIndex in
  let* relative := gets importPath in
  if ends_with ".css" path then ret (Some import) else
  let path := path +:+ ".styl" in
  (if truthy relative
   then modify (λ st, set_paths (paths st ++ [default "" relative]) st) else ret tt) ;;
  let* ps := gets paths in
  let found := utils_lookup C path ps in
  (if truthy relative
   then modify (λ st, set_paths (removelast (paths st)) st) else ret tt) ;;
  if negb (truthy found) then
    throw (new_Error ("failed to locate @import file " +:+ path))
  else
    let found := default "" found in
    modify (set_importPath (Some (dirname C found))) ;;
    let src := readFileSync C found in
    let* ns := nodes_of r in
    let* l := deref "nodes" r in
    let start := match i with Some i => S i | None => 0 end in
    let rest := drop start ns in
    write l (with_nodes (take start ns)) ;;
    let* ts := lift (parse C src found) in
    let* vs := materialize_all ts in
    push_all r vs ;;
    push_all r rest ;;
    ret (Some nodes.null).

(** Modelled from the spec: [Visitor.prototype.visit] (lib/visitor/index.js
    is not part of the sources) dispatches on the node's variant to the
    method of that name. *)
Definition Visitor_visit (l : loc) (s : nodes.shape value) : M value :=
  match s with
  | nodes.Color _ | nodes.HSLA _ | nodes.Literal _ | nodes.Boolean _
  | nodes.Unit _ _ | nodes.String _ | nodes.Null | nodes.Function _ _ _
  | nodes.Charset _ => ret (Some l)
  | nodes.Group _ => visitGroup l
  | nodes.Selector b => visitSelector l b
  | nodes.Call name args => visitCall l name args
  | nodes.Ident name val => visitIdent l name val
  | nodes.BinOp op lhs rhs => visitBinOp op lhs rhs
  | nodes.UnaryOp op expr => visitUnaryOp op expr
  | nodes.Ternary c t f => visitTernary c t f
  | nodes.Expression _ => visitExpression l
  | nodes.Property name expr => visitProperty l name expr
  | nodes.Root _ => visitRoot l
  | nodes.Block _ _ => visitBlock l
  | nodes.Import path => visitImport l path
  end.

(** [Evaluator.prototype.visit]: the dispatch inside [try], the decoration
    of the error in [catch].  With [node] undefined both the [try] block
    and the [catch] block fail on a property access. *)
Definition Evaluator_visit (n : value) : M value :=
  λ st,
    match n with
    | None => Throw (TypeError "source") st
    | Some l =>
      match heap st !! l with
      | None => Throw (TypeError "source") st
      | Some o =>
        match Visitor_visit l (nodes.shp o) (set_lineno (nodes.lineno o) st) with
        | Throw err st' =>
          Throw (decorate err (o ← heap st' !! l; nodes.source o)
                              (Stack_toString C (heap st') (stack st'))) st'
        | r => r
        end
      end
    end.

End Evaluator.

(** [this.visit(node)] with at most [n] nested dispatches. *)
Fixpoint visit (C : collaborators) (n : nat) : value → M value :=
  match n with
  | 0 => λ _, timeout
  | S n => Evaluator_visit C n (visit C n)
  end.

(** [new Evaluator(root, options)] over a store [h]. *)
Definition new_Evaluator (C : collaborators) (h : store) (r : value)
    (filename : option string) (fns : gmap string native) (ps : list string) : evaluator :=
  Evaluator h r [new_Frame r] fns
            (ps ++ [dirname C (if truthy filename then default "" filename else ".")])
            None Datatypes.false None None None.

(** [Evaluator.prototype.evaluate] *)
Definition evaluate (C : collaborators) (n : nat) : M value :=
  λ st, visit C n (root st) st.

(** * The vocabulary of the properties *)

(** What never changes in an object: its variant, names, operators, constants
    and the unit of a number.  Child slots and the number of a unit are
    erased. *)
Definition skeleton (s : nodes.shape value) : nodes.shape unit :=
  match s with
  | nodes.Color c => nodes.Color c
  | nodes.HSLA c => nodes.HSLA c
  | nodes.Literal x => nodes.Literal x
  | nodes.Boolean b => nodes.Boolean b
  | nodes.Unit _ u => nodes.Unit 0 u
  | nodes.String x => nodes.String x
  | nodes.Null => nodes.Null
  | nodes.Function nm _ _ => nodes.Function nm tt tt
  | nodes.Group _ => nodes.Group []
  | nodes.Selector _ => nodes.Selector tt
  | nodes.Charset x => nodes.Charset x
  | nodes.Call nm _ => nodes.Call nm tt
  | nodes.Ident nm _ => nodes.Ident nm tt
  | nodes.BinOp op _ _ => nodes.BinOp op tt tt
  | nodes.UnaryOp op _ => nodes.UnaryOp op tt
  | nodes.Ternary _ _ _ => nodes.Ternary tt tt tt
  | nodes.Expression _ => nodes.Expression []
  | nodes.Property nm _ => nodes.Property nm tt
  | nodes.Root _ => nodes.Root []
  | nodes.Block _ _ => nodes.Block None []
  | nodes.Import p => nodes.Import p
  end.

(** [o'] is the object [o] at a later time. *)
Definition same_object (o o' : node) : Prop :=
  nodes.lineno o' = nodes.lineno o ∧ nodes.source o' = nodes.source o
  ∧ skeleton (nodes.shp o') = skeleton (nodes.shp o).

(** Every object of [h] is still in [h'], at the same place. *)
Definition evolves (h h' : store) : Prop :=
  ∀ l o, h !! l = Some o → ∃ o', h' !! l = Some o' ∧ same_object o o'.

(** The child slots of a shape, in the order a traversal takes them. *)
Definition children_of {A} (s : nodes.shape A) : list A :=
  match s with
  | nodes.Function _ ps b => [ps; b]
  | nodes.Group ns | nodes.Expression ns | nodes.Root ns | nodes.Block _ ns => ns
  | nodes.Selector b => [b]
  | nodes.Call _ a => [a]
  | nodes.Ident _ v => [v]
  | nodes.BinOp _ l r => [l; r]
  | nodes.UnaryOp _ e => [e]
  | nodes.Ternary c t f => [c; t; f]
  | nodes.Property _ e => [e]
  | _ => []
  end.

(** [f] only adds objects at the end of the store. *)
Definition extending (f : value → store → option (value * store)) : Prop :=
  ∀ v h v' h', f v h = Some (v', h') → ∃ ext, h' = h ++ ext.

(** A method is [stable] when every object of the store it starts from is
    still there, with the same variant, when it returns or throws. *)
Definition stable {A} (m : M A) : Prop :=
  ∀ st, match m st with
        | Ret _ st' | Throw _ st' => evolves (heap st) (heap st')
        | Timeout => True
        end.

(** [keeps m]: when [m] completes normally, [this.return] is what it was. *)
Definition keeps {A} (m : M A) : Prop :=
  ∀ st, match m st with Ret _ st' => return_ st' = return_ st | _ => True end.

(** [from b m]: started with the flag at [b], [m] completes with the flag at [b]. *)
Definition from {A} (b : bool) (m : M A) : Prop :=
  ∀ st, return_ st = b →
        match m st with Ret _ st' => return_ st' = b | _ => True end.

(** [lands b m]: whatever the flag was, [m] completes with the flag at [b]. *)
Definition lands {A} (b : bool) (m : M A) : Prop :=
  ∀ st, match m st with Ret _ st' => return_ st' = b | _ => True end.


(** [bounded h d v]: the objects reachable from [v] through child slots all
    exist in [h] and form a tree of depth below [d] (the constants are
    leaves). *)
Fixpoint bounded (h : store) (d : nat) (v : value) : bool :=
  match d with
  | 0 => Datatypes.false
  | S d =>
    match v with
    | None => Datatypes.true
    | Some l =>
      nodes.constant l ||
      match h !! l with
      | None => Datatypes.false
      | Some o => forallb (bounded h d) (children_of (nodes.shp o))
      end
    end
  end.

(** The parameter at index [i] is an identifier that receives a value: a
    positional argument, or else a default that is not a null node. *)
Definition satisfied (h : store) (argv : list value) (i : nat) (p : value) : Prop :=
  ∃ l nm d,
    p = Some l ∧ nodes.constant l = Datatypes.false
    ∧ shape_of h p = Some (nodes.Ident nm d)
    ∧ (bound_value argv i d = None
       ∨ ∃ s, shape_of h (bound_value argv i d) = Some s ∧ is_Null s = Datatypes.false).

(** The parameter at index [i], named [pname], receives neither a positional
    argument nor a default other than a null node. *)
Definition unsatisfied (h : store) (argv : list value) (i : nat) (p : value)
    (pname : string) : Prop :=
  ∃ l d,
    p = Some l ∧ nodes.constant l = Datatypes.false
    ∧ shape_of h p = Some (nodes.Ident pname d)
    ∧ index argv i = None
    ∧ instanceof h d is_Null = Datatypes.true.

(** [new Error('argument ' + node + ' required for ' + fn)] *)
Definition required_argument_error (pname fname : string) : error :=
  new_Error ("argument " +:+ pname +:+ " required for " +:+ fname).

(** ** The frame stack *)

(** [s'] has the frames of [s] below the top, and a top frame for the same
    block: only the scope of the top frame may differ. *)
Definition same_frames (s s' : list frame) : Prop :=
  tail s' = tail s ∧ block <$> head s' = block <$> head s.

(** [fixed m]: when [m] completes normally the frame stack is what it was. *)
Definition fixed {A} (m : M A) : Prop :=
  ∀ st, match m st with Ret _ st' => stack st' = stack st | _ => True end.

(** [scoped m]: when [m] completes normally the frames below the top are what
    they were and the top frame is still the frame of the same block. *)
Definition scoped {A} (m : M A) : Prop :=
  ∀ st, match m st with Ret _ st' => same_frames (stack st) (stack st') | _ => True end.

(** [unwinds m]: [m] completes with the top frame popped and the frames below
    it as they were. *)
Definition unwinds {A} (m : M A) : Prop :=
  ∀ st, match m st with Ret _ st' => stack st' = tail (stack st) | _ => True end.

(** ** Unary operators *)


(** The name of a parameter, when the parameter is an identifier. *)
Definition param_name (h : store) (p : value) : option string :=
  match shape_of h p with
  | Some (nodes.Ident nm _) => Some nm
  | _ => None
  end.

(** The variants whose visit method returns its argument without looking
    inside. *)
Definition leaf (s : nodes.shape value) : bool :=
  match s with
  | nodes.Color _ | nodes.HSLA _ | nodes.Literal _ | nodes.Boolean _
  | nodes.Unit _ _ | nodes.String _ | nodes.Null | nodes.Function _ _ _
  | nodes.Charset _ => Datatypes.true
  | _ => Datatypes.false
  end.

(** The variants whose visit method evaluates the children and stores the
    results back into the node. *)
Definition container (s : nodes.shape value) : bool :=
  match s with
  | nodes.Group _ | nodes.Selector _ | nodes.Expression _ | nodes.Root _
  | nodes.Block _ _ => Datatypes.true
  | _ => Datatypes.false
  end.

(** ** The configuration of the evaluator *)

(** What the constructor sets up and the evaluation is not meant to change:
    the root, the external function table and the search paths. *)
Definition configuration (st : evaluator) : value * gmap string native * list string :=
  (root st, functions st, paths st).

(** [settled m]: whether [m] returns or throws, the configuration is what it
    was. *)
Definition settled {A} (m : M A) : Prop :=
  ∀ st, match m st with
        | Ret _ st' | Throw _ st' => configuration st' = configuration st
        | Timeout => True
        end.

(** * Concrete programs *)

Module Example.

(** Short hands for trees: a node with its source excerpt, the null constant,
    a reference to a name, a number in [px], an expression. *)
Definition N (src : string) (s : nodes.shape ast) : ast := New (Some 1) (Some src) s.
Definition null : ast := Ref (Some nodes.null).
Definition ident (x : string) : ast := N x (nodes.Ident x null).
Definition unit (z : Z) : ast := N "unit" (nodes.Unit z "px").
Definition expr (l : list ast) : ast := N "expr" (nodes.Expression l).

(** Collaborators for the examples: units add up, coercion is the identity,
    the only file that can be imported is [foo.styl], which holds the
    property [color red]. *)
Definition C0 : collaborators := {|
  toBoolean := λ h l, match shape_of h (Some l) with
                    | Some (nodes.Boolean b) => b
                    | Some nodes.Null => Datatypes.false
                    | _ => Datatypes.true
                    end;
  coerce := λ h l r, inr (Ref r);
  operate := λ h op l r,
   match shape_of h (Some l), shape_of h r with
   | Some (nodes.Unit a u), Some (nodes.Unit b _) =>
     inr (New None None (nodes.Unit (a + b) u))
   | _, _ => inl (new_Error "cannot operate")
   end;
  inspect := λ _ _, "node";
  bifs := ∅;
  utils_lookup := λ p _, if String.eqb p "foo.styl" then Some "/lib/foo.styl" else None;
  dirname := λ _, "/lib";
  readFileSync := λ p, p;
  parse := λ _ _, inr [N "color red" (nodes.Property "color" (expr [ident "red"]))];
  Stack_toString := λ _ _, "trace"
  |}.

(** The evaluator for a program: the tree becomes objects behind the three
    constants, and the root is handed to the constructor. *)
Definition load (prog : ast) : evaluator :=
  let '(r, h) := alloc prog initial_store in new_Evaluator C0 h r None ∅ [].

(** The state an outcome ends in ([s0] when there is none). *)
Definition final {A} (o : outcome A) (s0 : evaluator) : evaluator :=
  match o with Ret _ s | Throw _ s => s | Timeout => s0 end.

(** [f() { color red; margin 1 }] and a rule whose block calls [f()] as its
    first statement, followed by [width 3]. *)
Definition mixin_prog : ast := N "root" (nodes.Root [
  N "f()" (nodes.Ident "f" (N "f" (nodes.Function "f" (expr [])
   (N "body" (nodes.Block None
      [ N "color red" (nodes.Property "color" (expr [ident "red"]));
        N "margin 1" (nodes.Property "margin" (expr [unit 1])) ])))));
  N "sel" (nodes.Selector (N "block" (nodes.Block None
   [ N "f()" (nodes.Call "f" (expr []));
     N "width 3" (nodes.Property "width" (expr [unit 3])) ])))
   ]).

(** [f(x = 5) { -x }] followed by the given statements. *)
Definition negate_prog (stmts : list ast) : ast := N "root" (nodes.Root (
  N "f(x = 5)" (nodes.Ident "f" (N "f" (nodes.Function "f"
   (expr [N "x = 5" (nodes.Ident "x" (expr [unit 5]))])
   (N "body" (nodes.Block None [N "-x" (nodes.UnaryOp "-" (ident "x"))])))))
  :: stmts)).

(** [x = f()] *)
Definition assign_call (x : string) : ast :=
  N "x = f()" (nodes.Ident x (N "f()" (nodes.Call "f" (expr [])))).

(** The value a name is bound to in the global frame, as a shape. *)
Definition global_binding (x : string) (s : evaluator) : option (nodes.shape value) :=
  shape_of (heap s) (Stack_lookup x (stack s)).

(** The statements of [body] stand in [ns] from position [pos] on. *)
Definition statements_at (ns : list value) (pos : nat) (body : list value) : Prop :=
  ∀ k v, body !! k = Some v → ns !! (pos + k) = Some v.

(** A body [1 2] and an enclosing block [3], with the block's frame on top. *)
Definition splice_state (r : bool) : evaluator :=
  let '(_, h) := alloc (N "root" (nodes.Root
                 [ expr [unit 1; unit 2]; N "block" (nodes.Block None [unit 3]) ]))
                 initial_store in
  Evaluator h (Some 8) [new_Frame (Some 7)] ∅ [] None r None None None.

(** The units [1] and [2] as objects 3 and 4. *)
Definition units_state : evaluator :=
  let '(_, h) := alloc (N "root" (nodes.Root [unit 1; unit 2])) initial_store in
  Evaluator h (Some 5) [new_Frame (Some 5)] ∅ [] None Datatypes.false None None None.

(** The branches of [true ? 1 : (x = 2)]: a unit (object 3) and an assignment
    (object 6). *)
Definition ternary_state : evaluator :=
  let '(_, h) := alloc (N "root" (nodes.Root
                   [ unit 1; N "x = 2" (nodes.Ident "x" (expr [unit 2])) ]))
                   initial_store in
  Evaluator h (Some 7) [new_Frame (Some 7)] ∅ [] None Datatypes.false None None None.

(** [(1 is defined)] inside an expression: the check fails on object 4,
    inside the dispatch of the expression (object 5). *)
Definition failing_state : evaluator :=
  let '(_, h) := alloc (N "outer" (nodes.Expression
                   [ N "inner" (nodes.BinOp "is defined" (unit 1) null) ]))
                   initial_store in
  Evaluator h (Some 5) [new_Frame (Some 5)] ∅ [] None Datatypes.false None None None.


(** [x(1)] where [x] is bound to the expression [5]: the bound expression is
    object 4, its unit object 3, the call object 7, its arguments object 6. *)
Definition unit_call_state : evaluator :=
  let '(_, h) := alloc (N "root" (nodes.Root
                   [ expr [unit 5]; N "x(1)" (nodes.Call "x" (expr [unit 1])) ]))
                   initial_store in
  Evaluator h (Some 8) [Frame {[ "x" := Some 4 ]} (Some 8)] ∅ [] None Datatypes.false
            None None None.

(** [@import "foo"] followed by [width 3], the import being visited as the
    statement at root index 0. *)
Definition import_state : evaluator :=
  set_rootIndex (Some 0)
    (load (N "root" (nodes.Root
       [ N "@import foo" (nodes.Import "foo");
         N "width 3" (nodes.Property "width" (expr [unit 3])) ]))).

(** [f(x) { x }] called without arguments: the function is object 7, its
    parameter list object 4 with the parameter object 3, its body object 6,
    the empty argument list of the call object 8. *)
Definition required_state : evaluator :=
  let '(_, h) := alloc (N "root" (nodes.Root
                   [ N "f" (nodes.Function "f" (expr [ident "x"])
                       (N "body" (nodes.Block None [ident "x"])));
                     expr [] ]))
                   initial_store in
  Evaluator h (Some 9) [new_Frame (Some 9)] ∅ [] None Datatypes.true None None None.

(** Two native functions: one for the external table, one for the builtin
    registry. *)
Definition external_g : native := λ _ _, inr (unit 9).
Definition builtin_g : native := λ _ _, inr (unit 0).

(** A native function that returns its second argument. *)
Definition second_argument : native := λ _ xs, inr (Ref (index xs 1)).

(** Collaborators like [C0], except that every coercion fails and that the
    builtin registry knows [g]. *)
Definition C1 : collaborators := {|
  toBoolean := toBoolean C0;
  coerce := λ _ _ _, inl (new_Error "no coercion");
  operate := operate C0;
  inspect := inspect C0;
  bifs := {[ "g" := builtin_g ]};
  utils_lookup := utils_lookup C0;
  dirname := dirname C0;
  readFileSync := readFileSync C0;
  parse := parse C0;
  Stack_toString := Stack_toString C0
  |}.

(** [f() { 1 }], the calls [f()] and [g()] and the property [f 2], with [f]
    bound to the function definition (object 6) in the global frame, and an
    external function table that knows both [f] and [g].  The calls are
    objects 8 and 10 with the argument lists 7 and 9, the property is object
    13 with the expression 12, the root object 14. *)
Definition shadow_state : evaluator :=
  let '(_, h) := alloc (N "root" (nodes.Root
                   [ N "f" (nodes.Function "f" (expr [])
                       (N "body" (nodes.Block None [unit 1])));
                     N "f()" (nodes.Call "f" (expr []));
                     N "g()" (nodes.Call "g" (expr []));
                     N "f 2" (nodes.Property "f" (expr [unit 2])) ]))
                   initial_store in
  Evaluator h (Some 14) [Frame {[ "f" := Some 6 ]} (Some 14)]
            {[ "f" := external_g; "g" := external_g ]}
            [] None Datatypes.true None None None.

(** [f(x, y = 5) { x }] and the argument list [(7)]: the function is object
    10, its parameters [x] and [y] objects 3 and 6 in the list 7, the default
    of [y] the expression 5, the body object 9, the argument list object 12
    with the unit 11, the root object 13. *)
Definition defaults_state : evaluator :=
  let '(_, h) := alloc (N "root" (nodes.Root
                   [ N "f" (nodes.Function "f"
                       (expr [ident "x"; N "y = 5" (nodes.Ident "y" (expr [unit 5]))])
                       (N "body" (nodes.Block None [ident "x"])));
                     expr [unit 7] ]))
                   initial_store in
  Evaluator h (Some 13) [new_Frame (Some 13)] ∅ [] None Datatypes.true None None None.

End Example.

(** * Properties *)

(** ** The store *)

Section store_facts.
Implicit Types (h : store) (l : loc) (f g : nodes.shape value → nodes.shape value).

Lemma lookup_update h l f l' :
  update l f h !! l' =
  if decide (l = l')
  then (λ n, nodes.Node (nodes.lineno n) (nodes.source n) (f (nodes.shp n))) <$> h !! l
  else h !! l'.
Proof.
  unfold update. case_decide as Hl.
  - subst. apply list_lookup_alter_eq.
  - by apply list_lookup_alter_ne.
Qed.

Lemma shape_of_update h l f v :
  shape_of (update l f h) v =
  if decide (v = Some l) then f <$> shape_of h v else shape_of h v.
Proof.
  destruct v as [l'|]; simpl; [|done].
  rewrite lookup_update. repeat case_decide; simplify_eq; try done.
  by match goal with |- context [h !! ?x] => destruct (h !! x) end.
Qed.

Lemma update_update h l f g : update l g (update l f h) = update l (g ∘ f) h.
Proof. unfold update. rewrite list_alter_alter_eq. by apply list_alter_ext. Qed.

Lemma update_ext h l f g :
  (∀ s, shape_of h (Some l) = Some s → f s = g s) → update l f h = update l g h.
Proof.
  intros H. unfold update. apply list_alter_ext; [|done].
  intros o Ho. f_equal. apply H. simpl. by rewrite Ho.
Qed.

Lemma update_id h l f :
  (∀ s, shape_of h (Some l) = Some s → f s = s) → update l f h = h.
Proof.
  intros H. unfold update. apply list_eq. intros i.
  rewrite list_lookup_alter. case_decide; [subst|done].
  destruct (h !! i) as [[ln src s]|] eqn:Ho; [|done]. simpl.
  rewrite H; [done|]. simpl. by rewrite Ho.
Qed.


Lemma with_nodes_with_nodes (ns ns' : list value) s :
  with_nodes ns' (with_nodes ns s) = with_nodes ns' s.
Proof. by destruct s. Qed.

Lemma shape_nodes_with_nodes (ns ns' : list value) s :
  shape_nodes s = Some ns → shape_nodes (with_nodes ns' s) = Some ns'.
Proof. by destruct s. Qed.

Lemma with_nodes_id (ns : list value) s : shape_nodes s = Some ns → with_nodes ns s = s.
Proof. destruct s; simpl; congruence. Qed.

Lemma set_nodes_set_nodes h l (ns ns' : list value) :
  set_nodes l ns' (set_nodes l ns h) = set_nodes l ns' h.
Proof.
  unfold set_nodes. rewrite update_update. apply update_ext.
  intros s _. apply with_nodes_with_nodes.
Qed.

Lemma set_nodes_id h l (ns : list value) :
  get_nodes h (Some l) = Some ns → set_nodes l ns h = h.
Proof.
  intros H. apply update_id. intros s Hs. apply with_nodes_id.
  unfold get_nodes in H. rewrite Hs in H. done.
Qed.

Lemma get_nodes_set_nodes h l (ns ns' : list value) v :
  get_nodes h (Some l) = Some ns →
  get_nodes (set_nodes l ns' h) v =
  if decide (v = Some l) then Some ns' else get_nodes h v.
Proof.
  intros H. unfold get_nodes, set_nodes. rewrite shape_of_update.
  case_decide; [subst|done].
  unfold get_nodes in H. destruct (shape_of h (Some l)) as [s|]; [|done].
  simpl in *. by eapply shape_nodes_with_nodes.
Qed.

Lemma index_lookup (ns : list value) i v : ns !! i = Some v → index ns i = v.
Proof. unfold index. by intros ->. Qed.

Lemma index_ge (ns : list value) i : length ns ≤ i → index ns i = None.
Proof. unfold index. intros H. by rewrite lookup_ge_None_2. Qed.

Lemma index_app_l (ns ms : list value) i :
  i < length ns → index (ns ++ ms) i = index ns i.
Proof. unfold index. intros H. by rewrite lookup_app_l. Qed.

Lemma take_S_index (ns : list value) i :
  i < length ns → take (S i) ns = take i ns ++ [index ns i].
Proof.
  intros H. destruct (lookup_lt_is_Some_2 ns i H) as [v Hv].
  rewrite (index_lookup _ _ _ Hv). by apply take_S_r.
Qed.
End store_facts.

(** ** Running the monad *)

Lemma bind_Ret {A B} (m : M A) (k : A → M B) st a st' :
  m st = Ret a st' → bind m k st = k a st'.
Proof. unfold bind. by intros ->. Qed.

Lemma bind_Throw {A B} (m : M A) (k : A → M B) st e st' :
  m st = Throw e st' → bind m k st = Throw e st'.
Proof. unfold bind. by intros ->. Qed.

Lemma bind_Timeout {A B} (m : M A) (k : A → M B) st :
  m st = Timeout → bind m k st = Timeout.
Proof. unfold bind. by intros ->. Qed.

Lemma nodes_of_Ret st v ns :
  get_nodes (heap st) v = Some ns → nodes_of v st = Ret ns st.
Proof. unfold nodes_of. by intros ->. Qed.

Lemma the_shape_Ret what st v s :
  shape_of (heap st) v = Some s → the_shape what v st = Ret s st.
Proof. unfold the_shape. by intros ->. Qed.

Lemma the_currentFrame_Ret st f :
  currentFrame (stack st) = Some f → the_currentFrame st = Ret f st.
Proof. unfold the_currentFrame. by intros ->. Qed.

Lemma write_Ret l f st : write l f st = Ret tt (set_heap (update l f (heap st)) st).
Proof. done. Qed.

Lemma modify_Ret f st : modify f st = Ret tt (f st).
Proof. done. Qed.

Lemma gets_Ret {A} (f : evaluator → A) st : gets f st = Ret (f st) st.
Proof. done. Qed.

Lemma deref_Ret {A} what (o : option A) a st : o = Some a → deref what o st = Ret a st.
Proof. by intros ->. Qed.

(** One step of symbolic execution: the first action of a [bind] returns. *)
Ltac step :=
  erewrite bind_Ret by
    first [ apply write_Ret | apply modify_Ret | apply gets_Ret
          | by apply nodes_of_Ret | by apply the_shape_Ret
          | by apply the_currentFrame_Ret | by apply deref_Ret
          | eassumption | reflexivity ].

(** ** C1: the return-or-splice policy of [invoke] *)

(** The loop of [invoke]: after [i] rounds the block of the enclosing frame
    holds its old statements followed by the first [i] statements of the
    body. *)
Lemma invoke_forEach_spec count : ∀ i st h0 body f b target ns,
  currentFrame (stack st) = Some f →
  block f = Some b →
  get_nodes h0 (Some b) = Some target →
  get_nodes h0 body = Some ns →
  heap st = set_nodes b (target ++ take i ns) h0 →
  i + count ≤ length ns →
  invoke_forEach body i count st
  = Ret tt (set_heap (set_nodes b (target ++ take (i + count) ns) h0) st).
Proof.
  induction count as [|count IH]; intros i st h0 body f b target ns Hf Hb Ht Hn Hh Hle.
  - simpl. rewrite Nat.add_0_r, <- Hh. by destruct st.
  - simpl.
    assert (Hbody : ∃ bn, get_nodes (heap st) body = Some bn ∧ index bn i = index ns i).
    { rewrite Hh. rewrite (get_nodes_set_nodes _ _ _ _ _ Ht). case_decide as Hal.
      - eexists; split; [done|]. subst body. rewrite Ht in Hn. simplify_eq.
        rewrite index_app_l by lia. done.
      - eauto. }
    destruct Hbody as (bn & Hbn & Hidx).
    assert (Htg : get_nodes (heap st) (Some b) = Some (target ++ take i ns)).
    { rewrite Hh, (get_nodes_set_nodes _ _ _ _ _ Ht). by rewrite decide_True. }
    do 2 step. rewrite Hb. do 3 step.
    rewrite (IH (S i) _ h0 body f b target ns); simpl; try done; try lia.
    + f_equal. by rewrite Nat.add_succ_r.
    + rewrite Hh. fold (set_nodes b ((target ++ take i ns) ++ [index bn i])).
      rewrite set_nodes_set_nodes, Hidx, <- app_assoc, <- take_S_index by lia. done.
Qed.

(** C1 (as amended): in value-returning mode [invoke] returns the last node of
    the body's statement sequence and changes nothing; otherwise it appends
    every statement of the body, in order, at the END of the node sequence of
    the block of the current frame and returns the null node. *)
Theorem invoke_return_or_splice (body : value) (st : evaluator) (ns : list value) :
  get_nodes (heap st) body = Some ns →
  (return_ st = Datatypes.true →
     invoke body st = Ret (mjoin (last ns)) st) ∧
  (return_ st = Datatypes.false →
     ∀ f b target,
       currentFrame (stack st) = Some f →
       block f = Some b →
       get_nodes (heap st) (Some b) = Some target →
       invoke body st
       = Ret (Some nodes.null) (set_heap (set_nodes b (target ++ ns) (heap st)) st)).
Proof.
  intros Hn. split.
  - intros Hr. unfold invoke. do 2 step. rewrite Hr. unfold ret. f_equal.
    destruct ns as [|v ns]; [done|].
    unfold index. rewrite last_lookup. simpl. by rewrite Nat.sub_0_r.
  - intros Hr f b target Hf Hb Ht. unfold invoke. do 2 step. rewrite Hr.
    erewrite bind_Ret.
    2:{ eapply (invoke_forEach_spec _ 0 st (heap st)); try done.
        simpl. rewrite app_nil_r. symmetry. by apply set_nodes_id. }
    simpl. by rewrite firstn_all.
Qed.

(** ** Objects keep their variant

    The evaluator only ever writes child slots (a node sequence, [block],
    [args], [val], [expr], [parent]) and the number of a unit.  The variant of
    an object, its names and operators and its [lineno] and [source] never
    change, and no object is dropped from the store. *)

Lemma evolves_refl h : evolves h h.
Proof. intros l o Ho. exists o. by repeat split. Qed.

Lemma evolves_trans h1 h2 h3 : evolves h1 h2 → evolves h2 h3 → evolves h1 h3.
Proof.
  intros H12 H23 l o Ho.
  destruct (H12 l o Ho) as (o2 & Ho2 & ? & ? & ?).
  destruct (H23 l o2 Ho2) as (o3 & Ho3 & ? & ? & ?).
  exists o3. repeat split; congruence.
Qed.

Lemma evolves_app h ext : evolves h (h ++ ext).
Proof.
  intros l o Ho. exists o. split; [|by repeat split].
  rewrite lookup_app_l; [done|]. by eapply lookup_lt_Some.
Qed.

Lemma evolves_update h l f :
  (∀ s, skeleton (f s) = skeleton s) → evolves h (update l f h).
Proof.
  intros Hf l' o Ho. rewrite lookup_update. case_decide; [subst|].
  - rewrite Ho. simpl. eexists; split; [done|]. repeat split; simpl; auto.
  - exists o. by repeat split.
Qed.

Lemma evolves_length h h' : evolves h h' → length h ≤ length h'.
Proof.
  intros H. destruct h as [|o h _] using rev_ind; [simpl; lia|].
  destruct (H (length h) o) as (o' & Ho' & _).
  { by rewrite lookup_app_r, Nat.sub_diag by lia. }
  apply lookup_lt_Some in Ho'. rewrite length_app. simpl. lia.
Qed.

Lemma evolves_skeleton h h' v s :
  evolves h h' → shape_of h v = Some s →
  ∃ s', shape_of h' v = Some s' ∧ skeleton s' = skeleton s.
Proof.
  intros H Hs. destruct v as [l|]; [|done]. simpl in *.
  destruct (h !! l) as [o|] eqn:Ho; [|done]. simplify_eq/=.
  destruct (H l o Ho) as (o' & -> & _ & _ & ?). eauto.
Qed.

(** Allocation and deep copies only add objects at the end of the store. *)
Lemma allocs_prefix_of (alloc_one : ast → store → value * store) ts :
  Forall (λ t, ∀ h, ∃ ext, (alloc_one t h).2 = h ++ ext) ts →
  ∀ h, ∃ ext,
    ((fix allocs (ts : list ast) (h : store) {struct ts} : list value * store :=
        match ts with
        | [] => ([], h)
        | t :: ts => let '(v, h) := alloc_one t h in
                     let '(vs, h) := allocs ts h in (v :: vs, h)
        end) ts h).2 = h ++ ext.
Proof.
  induction 1 as [|t ts Ht _ IH]; intros h.
  - exists []. simpl. by rewrite app_nil_r.
  - destruct (Ht h) as [e1 H1]. simpl. destruct (alloc_one t h) as [v h1]. simpl in H1. subst.
    destruct (IH (h ++ e1)) as [e2 H2].
    match goal with |- context [let '(_, _) := ?x in _] => destruct x as [vs h2] end.
    simpl in *. subst. exists (e1 ++ e2). by rewrite app_assoc.
Qed.

(** Induction on syntax trees, with the hypothesis for every child. *)
Lemma ast_ind' (P : ast → Prop) :
  (∀ v, P (Ref v)) →
  (∀ ln src s, Forall P (children_of s) → P (New ln src s)) →
  ∀ t, P t.
Proof.
  intros HR HN. fix IH 1. intros [v|ln src s]; [apply HR|]. apply HN.
  destruct s as [| | | | | | | |ns| | | | | | | |ns| |ns|? ns|]; simpl;
    repeat constructor; try apply IH.
  all: induction ns as [|t ts IHts]; constructor; [apply IH | apply IHts].
Qed.

Lemma alloc_extends t : ∀ h, ∃ ext, (alloc t h).2 = h ++ ext.
Proof.
  induction t as [v|ln src s IH] using ast_ind'; intros h.
  - exists []. simpl. by rewrite app_nil_r.
  - assert (Hpush : ∀ (s' : nodes.shape value) h1 e1, h1 = h ++ e1 →
      ∃ ext, (let '(l, h2) := push_node (nodes.Node ln src s') h1 in (Some l, h2)).2 = h ++ ext).
    { intros s' h1 e1 ->. exists (e1 ++ [nodes.Node ln src s']). simpl. by rewrite app_assoc. }
    destruct s; simpl in *;
      repeat match goal with
      | H : Forall _ (_ :: _) |- _ => apply Forall_cons in H; destruct H
      end;
      repeat match goal with
      | Hc : ∀ h, ∃ ext, (alloc ?t h).2 = h ++ ext |- context [alloc ?t ?h0] =>
        let e := fresh "e" in let E := fresh "E" in
        destruct (Hc h0) as [e E]; destruct (alloc t h0); simpl in E; subst; clear Hc
      | Hc : Forall _ ?ts |- context [let '(_, _) := ?x in _] =>
        let e := fresh "e" in let E := fresh "E" in
        destruct (allocs_prefix_of alloc _ Hc h) as [e E];
        match type of E with (?y).2 = _ => destruct y end;
        simpl in E; subst; clear Hc
      end;
      try (by eapply (Hpush _ h []); rewrite app_nil_r);
      eapply Hpush; rewrite <- ?app_assoc; reflexivity.
Qed.

Lemma allocs_extends ts : ∀ h, ∃ ext, (allocs ts h).2 = h ++ ext.
Proof.
  induction ts as [|t ts IH]; intros h; simpl.
  - exists []. by rewrite app_nil_r.
  - destruct (alloc_extends t h) as [e1 H1]. destruct (alloc t h) as [v h1].
    destruct (IH h1) as [e2 H2]. destruct (allocs ts h1) as [vs h2].
    simpl in *. subst. exists (e1 ++ e2). by rewrite app_assoc.
Qed.

Lemma traverse_list_extends f vs :
  extending f → ∀ h vs' h', traverse_list f vs h = Some (vs', h') → ∃ ext, h' = h ++ ext.
Proof.
  intros Hf. induction vs as [|v vs IH]; intros h vs' h' H; simpl in H.
  - simplify_eq. exists []. by rewrite app_nil_r.
  - destruct (f v h) as [[v1 h1]|] eqn:E1; [|done]. simpl in H.
    destruct (traverse_list f vs h1) as [[vs1 h2]|] eqn:E2; [|done]. simplify_eq/=.
    destruct (Hf _ _ _ _ E1) as [e1 ->]. destruct (IH _ _ _ E2) as [e2 ->].
    exists (e1 ++ e2). by rewrite app_assoc.
Qed.

Lemma traverse_extends f s :
  extending f → ∀ h s' h', traverse f s h = Some (s', h') →
  (∃ ext, h' = h ++ ext) ∧ skeleton s' = skeleton s.
Proof.
  intros Hf h s' h' H.
  destruct s; simpl in H;
    repeat match goal with
    | H : context [f ?v ?h0] |- _ =>
      let E := fresh "E" in
      destruct (f v h0) as [[??]|] eqn:E; [|done]; simpl in H;
      apply Hf in E; destruct E as [? ->]
    | H : context [traverse_list f ?vs ?h0] |- _ =>
      let E := fresh "E" in
      destruct (traverse_list f vs h0) as [[??]|] eqn:E; [|done]; simpl in H;
      apply (traverse_list_extends f vs Hf) in E; destruct E as [? ->]
    end;
    simplify_eq/=; (split; [|done]);
    rewrite <- ?app_assoc; try (by eexists); exists []; by rewrite app_nil_r.
Qed.

Lemma clone_extends n : extending (clone n).
Proof.
  induction n as [|n IH]; intros v h v' h' H; simpl in H; [done|].
  destruct v as [l|]; [|simplify_eq; exists []; by rewrite app_nil_r].
  destruct (nodes.constant l); [simplify_eq; exists []; by rewrite app_nil_r|].
  destruct (h !! l) as [o|]; [|simplify_eq; exists []; by rewrite app_nil_r].
  destruct (traverse (clone n) (nodes.shp o) h) as [[s h1]|] eqn:E; [|done].
  simplify_eq/=. destruct (traverse_extends _ _ IH _ _ _ E) as [[e ->] _].
  eexists. by rewrite <- app_assoc.
Qed.

Section stable.
Lemma stable_ret {A} (a : A) : stable (ret a).
Proof. intros st. apply evolves_refl. Qed.

Lemma stable_throw {A} e : stable (@throw A e).
Proof. intros st. apply evolves_refl. Qed.

Lemma stable_timeout {A} : stable (@timeout A).
Proof. by intros st. Qed.

Lemma stable_bind {A B} (m : M A) (k : A → M B) :
  stable m → (∀ a, stable (k a)) → stable (bind m k).
Proof.
  intros Hm Hk st. unfold bind. specialize (Hm st).
  destruct (m st) as [a st1|e st1|]; [|done..].
  specialize (Hk a st1). destruct (k a st1); try done; by eapply evolves_trans.
Qed.

Lemma stable_gets {A} (f : evaluator → A) : stable (gets f).
Proof. intros st. apply evolves_refl. Qed.

Lemma stable_modify f : (∀ st, heap (f st) = heap st) → stable (modify f).
Proof. intros Hf st. simpl. rewrite Hf. apply evolves_refl. Qed.

Lemma stable_deref {A} what (o : option A) : stable (deref what o).
Proof. destruct o; [apply stable_ret|apply stable_throw]. Qed.

Lemma stable_lift {A} (r : error + A) : stable (lift r).
Proof. destruct r; [apply stable_throw|apply stable_ret]. Qed.

Lemma stable_new ln src s : stable (new ln src s).
Proof. intros st. simpl. apply evolves_app. Qed.

Lemma stable_materialize t : stable (materialize t).
Proof.
  intros st. unfold materialize. destruct (alloc_extends t (heap st)) as [e He].
  destruct (alloc t (heap st)). simpl in *. subst. apply evolves_app.
Qed.

Lemma stable_materialize_all ts : stable (materialize_all ts).
Proof.
  intros st. unfold materialize_all. destruct (allocs_extends ts (heap st)) as [e He].
  destruct (allocs ts (heap st)). simpl in *. subst. apply evolves_app.
Qed.

Lemma stable_write l f : (∀ s, skeleton (f s) = skeleton s) → stable (write l f).
Proof. intros Hf st. simpl. by apply evolves_update. Qed.

Lemma stable_the_shape what v : stable (the_shape what v).
Proof. intros st. unfold the_shape. apply stable_deref. Qed.

Lemma stable_nodes_of v : stable (nodes_of v).
Proof. intros st. unfold nodes_of. apply stable_deref. Qed.

Lemma stable_the_currentFrame : stable the_currentFrame.
Proof. intros st. unfold the_currentFrame. apply stable_deref. Qed.

Lemma stable_clone_node fuel v : stable (clone_node fuel v).
Proof.
  unfold clone_node. apply stable_bind; [apply stable_deref|]. intros _ st.
  destruct (clone fuel v (heap st)) as [[v' h']|] eqn:E; [|done].
  apply clone_extends in E. destruct E as [e ->]. apply evolves_app.
Qed.

Lemma skeleton_with_nodes ns s : skeleton (with_nodes ns s) = skeleton s.
Proof. by destruct s. Qed.
Lemma skeleton_set_block v s : skeleton (set_block v s) = skeleton s.
Proof. by destruct s. Qed.
Lemma skeleton_set_args v s : skeleton (set_args v s) = skeleton s.
Proof. by destruct s. Qed.
Lemma skeleton_set_val v s : skeleton (set_val v s) = skeleton s.
Proof. by destruct s. Qed.
Lemma skeleton_set_expr v s : skeleton (set_expr v s) = skeleton s.
Proof. by destruct s. Qed.
Lemma skeleton_set_parent v s : skeleton (set_parent v s) = skeleton s.
Proof. by destruct s. Qed.
Lemma skeleton_set_unit z s : skeleton (set_unit z s) = skeleton s.
Proof. by destruct s. Qed.
End stable.

Create HintDb stable discriminated.
#[export] Hint Resolve stable_ret stable_throw stable_timeout stable_gets stable_deref
  stable_lift stable_new stable_materialize stable_materialize_all stable_the_shape
  stable_nodes_of stable_the_currentFrame stable_clone_node : stable.
#[export] Hint Resolve skeleton_with_nodes skeleton_set_block skeleton_set_args
  skeleton_set_val skeleton_set_expr skeleton_set_parent skeleton_set_unit : stable.

(** Breaks a method into its actions. *)
Ltac stable_step :=
  match goal with
  | |- stable (bind _ _) => apply stable_bind; [|intros]
  | |- stable (write _ _) => apply stable_write; intros; auto with stable
  | |- stable (modify _) => apply stable_modify; by intros []
  | |- stable (match ?x with _ => _ end) => destruct x
  | |- stable _ => by auto with stable
  end.

Section stable_methods.
Context (C : collaborators) (fuel : nat) (visit : value → M value).
Context (Hvisit : ∀ v, stable (visit v)).

Lemma stable_scope_add name val : stable (scope_add name val).
Proof. unfold scope_add. repeat stable_step. Qed.

Lemma stable_stack_push f : stable (stack_push f).
Proof. unfold stack_push. repeat stable_step. Qed.

Lemma stable_stack_pop : stable stack_pop.
Proof. unfold stack_pop. repeat stable_step. Qed.

Lemma stable_first v : stable (first v).
Proof. unfold first. repeat stable_step. Qed.

Lemma stable_toBoolean_node v : stable (toBoolean_node C v).
Proof. unfold toBoolean_node. repeat stable_step. Qed.

Hint Resolve stable_scope_add stable_stack_push stable_stack_pop stable_first
  stable_toBoolean_node : stable.

Lemma stable_visit_slots o count : ∀ i, stable (visit_slots visit o i count).
Proof. induction count; intros i; simpl; repeat stable_step. Qed.

Lemma stable_visitRoot_loop budget blk : ∀ i, stable (visitRoot_loop visit budget blk i).
Proof. induction budget; intros i; simpl; repeat stable_step. Qed.

Lemma stable_invoke_forEach body count : ∀ i, stable (invoke_forEach body i count).
Proof. induction count; intros i; simpl; repeat stable_step. Qed.

Hint Resolve stable_visit_slots stable_visitRoot_loop stable_invoke_forEach : stable.

Lemma stable_invoke body : stable (invoke body).
Proof. unfold invoke. repeat stable_step. Qed.

Lemma stable_bind_params fn args ps : ∀ i, stable (bind_params C fuel fn args ps i).
Proof. induction ps; intros i; simpl; repeat stable_step. Qed.

Lemma stable_firsts vs : stable (firsts vs).
Proof. induction vs; simpl; repeat stable_step. Qed.

Lemma stable_push_all r vs : stable (push_all r vs).
Proof. induction vs; simpl; repeat stable_step. Qed.

Hint Resolve stable_invoke stable_bind_params stable_firsts stable_push_all : stable.

Lemma stable_invokeFunction fn args : stable (invokeFunction C fuel visit fn args).
Proof. unfold invokeFunction. repeat stable_step. Qed.

Lemma stable_invokeBuiltin f args : stable (invokeBuiltin f args).
Proof. unfold invokeBuiltin. repeat stable_step. Qed.

Lemma stable_literalCall call args : stable (literalCall visit call args).
Proof. unfold literalCall. repeat stable_step. Qed.

Lemma stable_lookupFunction name : stable (lookupFunction C name).
Proof.
  intros st. unfold lookupFunction.
  destruct (Stack_lookup name (stack st)); [apply evolves_refl|].
  destruct (functions st !! name); [apply evolves_refl|].
  destruct (bifs C !! name); apply evolves_refl.
Qed.

Hint Resolve stable_invokeFunction stable_invokeBuiltin stable_literalCall
  stable_lookupFunction : stable.

Lemma stable_visitCall call name args : stable (visitCall C fuel visit call name args).
Proof. unfold visitCall. repeat stable_step. Qed.

Lemma stable_visitIdent ident name val : stable (visitIdent visit ident name val).
Proof. unfold visitIdent. repeat stable_step. Qed.

Lemma stable_isDefined n : stable (isDefined C n).
Proof. unfold isDefined. repeat stable_step. Qed.

Hint Resolve stable_isDefined : stable.

Lemma stable_visitBinOp op l r : stable (visitBinOp C visit op l r).
Proof. unfold visitBinOp. repeat stable_step. Qed.

Lemma stable_visitUnaryOp op e : stable (visitUnaryOp C visit op e).
Proof. unfold visitUnaryOp, assertType_Unit. repeat stable_step. Qed.

Lemma stable_visitTernary c t f : stable (visitTernary C visit c t f).
Proof. unfold visitTernary. repeat stable_step. Qed.

Lemma stable_visitProperty prop name e : stable (visitProperty visit prop name e).
Proof. unfold visitProperty. repeat stable_step. Qed.

Lemma stable_visitImport import path : stable (visitImport C import path).
Proof. unfold visitImport. repeat stable_step. Qed.

Lemma stable_Visitor_visit l s : stable (Visitor_visit C fuel visit l s).
Proof.
  destruct s; simpl; auto using stable_visitCall, stable_visitIdent, stable_visitBinOp,
    stable_visitUnaryOp, stable_visitTernary, stable_visitProperty, stable_visitImport
    with stable.
  all: unfold visitGroup, visitSelector, visitExpression, visitRoot, visitBlock;
    repeat stable_step.
Qed.

Lemma stable_Evaluator_visit v : stable (Evaluator_visit C fuel visit v).
Proof.
  intros st. unfold Evaluator_visit.
  destruct v as [l|]; [|apply evolves_refl].
  destruct (heap st !! l) as [o|]; [|apply evolves_refl].
  pose proof (stable_Visitor_visit l (nodes.shp o) (set_lineno (nodes.lineno o) st)) as H.
  by destruct (Visitor_visit _ _ _ _ _ _).
Qed.
End stable_methods.

Lemma stable_visit C n : ∀ v, stable (visit C n v).
Proof.
  induction n as [|n IH]; intros v; simpl; [apply stable_timeout|].
  by apply stable_Evaluator_visit.
Qed.

(** ** C9: the return-mode flag is restored *)

Section keeps.
Lemma keeps_from {A} b (m : M A) : keeps m → from b m.
Proof. intros H st Hb. specialize (H st). destruct (m st); congruence. Qed.

Lemma from_keeps {A} (m : M A) : (∀ b, from b m) → keeps m.
Proof. intros H st. specialize (H _ st eq_refl). by destruct (m st). Qed.

Lemma lands_from {A} b (m : M A) : lands b m → from b m.
Proof. intros H st _. apply H. Qed.

Lemma keeps_ret {A} (a : A) : keeps (ret a).
Proof. by intros st. Qed.
Lemma keeps_throw {A} e : keeps (@throw A e).
Proof. by intros st. Qed.
Lemma keeps_timeout {A} : keeps (@timeout A).
Proof. by intros st. Qed.
Lemma keeps_gets {A} (f : evaluator → A) : keeps (gets f).
Proof. by intros st. Qed.
Lemma keeps_modify f : (∀ st, return_ (f st) = return_ st) → keeps (modify f).
Proof. intros Hf st. apply Hf. Qed.
Lemma keeps_deref {A} what (o : option A) : keeps (deref what o).
Proof. by destruct o. Qed.
Lemma keeps_lift {A} (r : error + A) : keeps (lift r).
Proof. by destruct r. Qed.
Lemma keeps_new ln src s : keeps (new ln src s).
Proof. by intros st. Qed.
Lemma keeps_materialize t : keeps (materialize t).
Proof. intros st. unfold materialize. by destruct (alloc t (heap st)). Qed.
Lemma keeps_materialize_all ts : keeps (materialize_all ts).
Proof. intros st. unfold materialize_all. by destruct (allocs ts (heap st)). Qed.
Lemma keeps_write l f : keeps (write l f).
Proof. by intros st. Qed.
Lemma keeps_the_shape what v : keeps (the_shape what v).
Proof. intros st. unfold the_shape. apply keeps_deref. Qed.
Lemma keeps_nodes_of v : keeps (nodes_of v).
Proof. intros st. unfold nodes_of. apply keeps_deref. Qed.
Lemma keeps_the_currentFrame : keeps the_currentFrame.
Proof. intros st. unfold the_currentFrame. apply keeps_deref. Qed.

Lemma keeps_bind {A B} (m : M A) (k : A → M B) :
  keeps m → (∀ a, keeps (k a)) → keeps (bind m k).
Proof.
  intros Hm Hk st. unfold bind. specialize (Hm st).
  destruct (m st) as [a st1|e st1|]; [|done..].
  specialize (Hk a st1). destruct (k a st1); congruence.
Qed.

Lemma keeps_clone_node fuel v : keeps (clone_node fuel v).
Proof.
  unfold clone_node. apply keeps_bind; [apply keeps_deref|]. intros _ st.
  by destruct (clone fuel v (heap st)) as [[v' h']|].
Qed.

Lemma from_bind {A B} b (m : M A) (k : A → M B) :
  from b m → (∀ a, from b (k a)) → from b (bind m k).
Proof.
  intros Hm Hk st Hb. unfold bind. specialize (Hm st Hb).
  destruct (m st) as [a st1|e st1|]; [|done..]. by apply Hk.
Qed.

(** [var _ = this.return]: the saved value is the flag at that point. *)
Lemma keeps_save {A} (k : bool → M A) :
  (∀ saved, from saved (k saved)) → keeps (bind (gets return_) k).
Proof. intros Hk st. unfold bind, gets. specialize (Hk _ st eq_refl). done. Qed.

Lemma from_save {A} b (k : bool → M A) :
  from b (k b) → from b (bind (gets return_) k).
Proof. intros Hk st Hb. unfold bind, gets. rewrite Hb. by apply Hk. Qed.

(** Whatever happens before, the flag is decided by what comes last. *)
Lemma lands_bind_skip {A B} b (m : M A) (k : A → M B) :
  (∀ a, lands b (k a)) → lands b (bind m k).
Proof.
  intros Hk st. unfold bind. destruct (m st) as [a st1|e st1|]; [|done..]. apply Hk.
Qed.

(** [this.return = _] followed by actions that keep the flag. *)
Lemma lands_restore {A} b (k : M A) :
  keeps k → lands b (bind (modify (set_return b)) (λ _, k)).
Proof.
  intros Hk st. unfold bind, modify. specialize (Hk (set_return b st)).
  destruct (k _); [|done..]. by rewrite Hk.
Qed.
End keeps.

Create HintDb keeps discriminated.
#[export] Hint Resolve keeps_ret keeps_throw keeps_timeout keeps_gets keeps_deref keeps_lift
  keeps_new keeps_materialize keeps_materialize_all keeps_write keeps_the_shape
  keeps_nodes_of keeps_the_currentFrame keeps_clone_node : keeps.

Ltac keeps_step :=
  match goal with
  | |- keeps (bind (gets return_) _) => apply keeps_save; intros
  | |- keeps (bind _ _) => apply keeps_bind; [|intros]
  | |- keeps (modify _) => apply keeps_modify; by intros []
  | |- keeps (match ?x with _ => _ end) => destruct x
  | |- from _ (bind (gets return_) _) => apply from_save
  | |- from _ (bind (modify (set_return _)) _) => apply lands_from
  | |- from _ (bind _ _) => apply from_bind; [apply keeps_from|intros]
  | |- from _ (match ?x with _ => _ end) => destruct x
  | |- from _ _ => apply keeps_from
  | |- lands ?b (bind (modify (set_return ?b)) _) => apply lands_restore
  | |- lands _ (bind _ _) => apply lands_bind_skip; intros
  | |- lands _ (match ?x with _ => _ end) => destruct x
  | |- keeps _ => by auto with keeps
  end.

Section keeps_methods.
Context (C : collaborators) (fuel : nat) (visit : value → M value).
Context (Hvisit : ∀ v, keeps (visit v)).

Lemma keeps_scope_add name val : keeps (scope_add name val).
Proof. unfold scope_add. repeat keeps_step. Qed.
Lemma keeps_stack_push f : keeps (stack_push f).
Proof. unfold stack_push. repeat keeps_step. Qed.
Lemma keeps_stack_pop : keeps stack_pop.
Proof. unfold stack_pop. repeat keeps_step. Qed.
Lemma keeps_first v : keeps (first v).
Proof. unfold first. repeat keeps_step. Qed.
Lemma keeps_toBoolean_node v : keeps (toBoolean_node C v).
Proof. unfold toBoolean_node. repeat keeps_step. Qed.

Hint Resolve keeps_scope_add keeps_stack_push keeps_stack_pop keeps_first
  keeps_toBoolean_node : keeps.

Lemma keeps_visit_slots o count : ∀ i, keeps (visit_slots visit o i count).
Proof. induction count; intros i; simpl; repeat keeps_step. Qed.

Lemma keeps_visitRoot_loop budget blk : ∀ i, keeps (visitRoot_loop visit budget blk i).
Proof. induction budget; intros i; simpl; repeat keeps_step. Qed.

Lemma keeps_invoke_forEach body count : ∀ i, keeps (invoke_forEach body i count).
Proof. induction count; intros i; simpl; repeat keeps_step. Qed.

Hint Resolve keeps_visit_slots keeps_visitRoot_loop keeps_invoke_forEach : keeps.

Lemma keeps_invoke body : keeps (invoke body).
Proof. unfold invoke. repeat keeps_step. Qed.

Lemma keeps_bind_params fn args ps : ∀ i, keeps (bind_params C fuel fn args ps i).
Proof. induction ps; intros i; simpl; repeat keeps_step. Qed.

Lemma keeps_firsts vs : keeps (firsts vs).
Proof. induction vs; simpl; repeat keeps_step. Qed.

Lemma keeps_push_all r vs : keeps (push_all r vs).
Proof. induction vs; simpl; repeat keeps_step. Qed.

Hint Resolve keeps_invoke keeps_bind_params keeps_firsts keeps_push_all : keeps.

Lemma keeps_invokeFunction fn args : keeps (invokeFunction C fuel visit fn args).
Proof. unfold invokeFunction. repeat keeps_step. Qed.

Lemma keeps_invokeBuiltin f args : keeps (invokeBuiltin f args).
Proof. unfold invokeBuiltin. repeat keeps_step. Qed.

Lemma keeps_literalCall call args : keeps (literalCall visit call args).
Proof. unfold literalCall. repeat keeps_step. Qed.

Lemma keeps_lookupFunction name : keeps (lookupFunction C name).
Proof.
  intros st. unfold lookupFunction.
  destruct (Stack_lookup name (stack st)); [done|].
  destruct (functions st !! name); [done|].
  by destruct (bifs C !! name).
Qed.

Hint Resolve keeps_invokeFunction keeps_invokeBuiltin keeps_literalCall
  keeps_lookupFunction : keeps.

(** The four places that set the flag restore it. *)
Lemma keeps_visitCall call name args : keeps (visitCall C fuel visit call name args).
Proof. unfold visitCall. repeat keeps_step. Qed.

Lemma keeps_visitIdent ident name val : keeps (visitIdent visit ident name val).
Proof. unfold visitIdent. repeat keeps_step. Qed.

Lemma keeps_isDefined n : keeps (isDefined C n).
Proof. unfold isDefined. repeat keeps_step. Qed.

Hint Resolve keeps_isDefined : keeps.

Lemma keeps_visitBinOp op l r : keeps (visitBinOp C visit op l r).
Proof. unfold visitBinOp. repeat keeps_step. Qed.

Lemma keeps_visitProperty prop name e : keeps (visitProperty visit prop name e).
Proof. unfold visitProperty. repeat keeps_step. Qed.

Lemma keeps_visitUnaryOp op e : keeps (visitUnaryOp C visit op e).
Proof. unfold visitUnaryOp, assertType_Unit. repeat keeps_step. Qed.

Lemma keeps_visitTernary c t f : keeps (visitTernary C visit c t f).
Proof. unfold visitTernary. repeat keeps_step. Qed.

Lemma keeps_visitImport import path : keeps (visitImport C import path).
Proof. unfold visitImport. repeat keeps_step. Qed.

Lemma keeps_Visitor_visit l s : keeps (Visitor_visit C fuel visit l s).
Proof.
  destruct s; simpl; auto using keeps_visitCall, keeps_visitIdent, keeps_visitBinOp,
    keeps_visitUnaryOp, keeps_visitTernary, keeps_visitProperty, keeps_visitImport
    with keeps.
  all: unfold visitGroup, visitSelector, visitExpression, visitRoot, visitBlock;
    repeat keeps_step.
Qed.

Lemma keeps_Evaluator_visit v : keeps (Evaluator_visit C fuel visit v).
Proof.
  intros st. unfold Evaluator_visit.
  destruct v as [l|]; [|done].
  destruct (heap st !! l) as [o|]; [|done].
  pose proof (keeps_Visitor_visit l (nodes.shp o) (set_lineno (nodes.lineno o) st)) as H.
  by destruct (Visitor_visit _ _ _ _ _ _).
Qed.
End keeps_methods.

Lemma keeps_visit C n : ∀ v, keeps (visit C n v).
Proof.
  induction n as [|n IH]; intros v; simpl; [apply keeps_timeout|].
  by apply keeps_Evaluator_visit.
Qed.


(** ** C5: a ternary visits the taken branch only *)

(** C5: after the condition is visited and reduced to a boolean, the result of
    the ternary is the visit of the selected branch, started in the state the
    condition left; the other branch does not take part, whatever it is. *)
Theorem visitTernary_taken_branch_only (C : collaborators) (visit : value → M value)
    (cond trueExpr falseExpr : value) (st st1 : evaluator) (c : loc) :
  visit cond st = Ret (Some c) st1 →
  (toBoolean C (heap st1) c = Datatypes.true →
     ∀ other, visitTernary C visit cond trueExpr other st = visit trueExpr st1) ∧
  (toBoolean C (heap st1) c = Datatypes.false →
     ∀ other, visitTernary C visit cond other falseExpr st = visit falseExpr st1).
Proof.
  intros Hc. split; intros Hb other; unfold visitTernary;
    step; unfold toBoolean_node; repeat step; rewrite Hb; simpl;
    repeat case_decide; simplify_eq; done.
Qed.

(** ** C4: binary operations coerce, operate, and visit the result *)

Lemma first_pure v st x st' : first v st = Ret x st' → st' = st.
Proof.
  unfold first, bind, the_shape. destruct (shape_of (heap st) v) as [s|]; simpl; [|done].
  destruct s; unfold ret; congruence.
Qed.

(** C4: for an operator outside [||], [&&], [is a] (and not [is defined]), with
    both operands visited in value-returning mode and reduced to their first
    values [l] and [r]: the right value is first coerced by [l.coerce(r)], the
    flag restored before; [l.operate(op, ·)] is then applied to the coerced
    value; and the node it yields is visited again. *)
Theorem visitBinOp_coerce_operate_revisit (C : collaborators) (visit : value → M value)
    (op : string) (lhs rhs : value) (st st1 st2 : evaluator) (lv rv : value) (l : loc)
    (r : value) :
  op ≠ "is defined" →
  ignore op = Datatypes.false →
  visit lhs (set_return Datatypes.true st) = Ret lv st1 →
  first lv st1 = Ret (Some l) st1 →
  visit rhs st1 = Ret rv st2 →
  first rv st2 = Ret r st2 →
  visitBinOp C visit op lhs rhs st =
    match coerce C (heap st2) l r with
    | inl e => Throw e (set_return (return_ st) st2)
    | inr t =>
      let '(r', h3) := alloc t (heap st2) in
      match operate C h3 op l r' with
      | inl e => Throw e (set_heap h3 (set_return (return_ st) st2))
      | inr t' =>
        let '(res, h4) := alloc t' h3 in
        visit res (set_heap h4 (set_return (return_ st) st2))
      end
    end.
Proof.
  intros Hop Hig Hl Hlf Hr Hrf. unfold visitBinOp.
  destruct (String.eqb_spec "is defined" op) as [<-|_]; [done|].
  repeat step. rewrite Hig. simpl.
  unfold bind, materialize, lift, gets, deref, ret, throw. simpl.
  destruct (coerce C (heap st2) l r) as [e|t]; simpl; [done|].
  destruct (alloc t (heap st2)) as [r' h3]. simpl.
  destruct (operate C h3 op l r') as [e|t']; simpl; [done|].
  by destruct (alloc t' h3) as [res h4].
Qed.

(** ** C6: errors are decorated where they first pass a dispatch *)

Lemma decorate_decorated e src trace :
  truthy (str e) = Datatypes.true → truthy (stylusStack e) = Datatypes.true →
  decorate e src trace = e.
Proof. destruct e as [m s k]. unfold decorate, or_else. simpl. by intros -> ->. Qed.

(** C6: a dispatch that fails rethrows the error of its body with the same
    message; it fills in [str] with the source of its own node and
    [stylusStack] with the trace of the stack only where the error carries
    none.  An error that already carries both, as one coming out of a deeper
    dispatch with a source and a trace does, passes unchanged. *)
Theorem visit_decorates_once (C : collaborators) (n : nat) (l : loc) (o : node)
    (st st' : evaluator) (e : error) :
  heap st !! l = Some o →
  visit C (S n) (Some l) st = Throw e st' →
  ∃ e0,
    Visitor_visit C n (visit C n) l (nodes.shp o) (set_lineno (nodes.lineno o) st)
      = Throw e0 st'
    ∧ message e = message e0
    ∧ str e = (if truthy (str e0) then str e0 else nodes.source o)
    ∧ stylusStack e = (if truthy (stylusStack e0) then stylusStack e0
                       else Some (Stack_toString C (heap st') (stack st')))
    ∧ (truthy (str e0) = Datatypes.true → truthy (stylusStack e0) = Datatypes.true → e = e0).
Proof.
  intros Ho H. simpl in H. unfold Evaluator_visit in H. rewrite Ho in H.
  pose proof (stable_Visitor_visit C n (visit C n) (stable_visit C n) l (nodes.shp o)
                (set_lineno (nodes.lineno o) st)) as Hst.
  destruct (Visitor_visit _ _ _ _ _ _) as [|e0 st0|]; [done| |done].
  simplify_eq. exists e0. split; [done|].
  destruct (Hst l o Ho) as (o' & Ho' & _ & Hsrc & _). rewrite Ho'. simpl. rewrite Hsrc.
  repeat split; try done. intros. by apply decorate_decorated.
Qed.

(** ** C10 and C7: calls that resolve to no function *)

Lemma skeleton_is_Function s s' : skeleton s' = skeleton s → is_Function s' = is_Function s.
Proof. by destruct s, s'. Qed.

(** C10: when the name of a call is bound, in the lexical environment, to a
    node that after unwrapping an expression to its first node is no function
    definition, [visitCall] visits the arguments in value-returning mode,
    restores the flag, and returns [undefined]. *)
Theorem visitCall_not_callable (C : collaborators) (n : nat) (call : loc) (name : string)
    (args : value) (st st1 : evaluator) (l0 : loc) (a : value) :
  Stack_lookup name (stack st) = Some l0 →
  (let target := match shape_of (heap st) (Some l0) with
                 | Some (nodes.Expression ns) => index ns 0
                 | _ => Some l0
                 end in
   target = None ∨ ∃ s, shape_of (heap st) target = Some s ∧ is_Function s = Datatypes.false) →
  visit C n args (set_return Datatypes.true (set_calling (Some name) st)) = Ret a st1 →
  visitCall C n (visit C n) call name args st = Ret None (set_return (return_ st) st1).
Proof.
  intros Hl Ht Ha. unfold visitCall.
  erewrite bind_Ret by (unfold lookupFunction; rewrite Hl; reflexivity).
  simpl. repeat step. simpl in *.
  assert (Hnf : ∀ (target : value) (k : loc → M value),
            target = None
            ∨ (∃ s, shape_of (heap st) target = Some s ∧ is_Function s = Datatypes.false) →
            (let* h := gets heap in
             match target with
             | Some l => if instanceof h target is_Function then k l else ret None
             | None => ret None
             end) (set_return (return_ st) st1) = Ret None (set_return (return_ st) st1)).
  { intros target k [->|(s & Hs & Hf)]; [done|].
    destruct target as [l|]; [|done]. step.
    pose proof (stable_visit C n args (set_return Datatypes.true (set_calling (Some name) st)))
      as Hst. rewrite Ha in Hst. simpl in Hst.
    destruct (evolves_skeleton _ _ _ _ Hst Hs) as (s' & Hs' & Hsk).
    unfold instanceof. simpl in *. rewrite Hs'.
    by rewrite (skeleton_is_Function _ _ Hsk), Hf. }
  destruct (nodes.shp <$> heap st !! l0) as [[]|];
    exact (Hnf _ (λ l, invokeFunction C n (visit C n) l a) Ht).
Qed.


(** ** C3: import expansion *)




(** One round of the top-level loop: the statement at [i] is visited and
    stored back, and the loop goes on at [i + 1] over the sequence as it is
    then, so statements an import put behind [i] are the next to be visited. *)
Lemma visitRoot_loop_step (visit : value → M value) budget blk i st ns v st1 ns1 :
  get_nodes (heap st) (Some blk) = Some ns →
  i < length ns →
  visit (index ns i) (set_rootIndex (Some i) st) = Ret v st1 →
  get_nodes (heap st1) (Some blk) = Some ns1 →
  visitRoot_loop visit (S budget) blk i st
  = visitRoot_loop visit budget blk (S i)
      (set_heap (set_nodes blk (store_at ns1 i v) (heap st1)) st1).
Proof.
  intros Hns Hi Hv Hns1. simpl. step. rewrite decide_True by done.
  do 2 step. erewrite bind_Ret by exact Hv. by do 2 step.
Qed.



(** ** Deep copies of finite trees *)

Lemma prefix_shape_of (h0 h : store) v s :
  h0 `prefix_of` h → shape_of h0 v = Some s → shape_of h v = Some s.
Proof.
  intros Hp. destruct v as [l|]; [|done]. simpl.
  destruct (h0 !! l) as [o|] eqn:Ho; [|done].
  by rewrite (prefix_lookup_Some _ _ _ _ Ho Hp).
Qed.

Lemma prefix_get_nodes (h0 h : store) v ns :
  h0 `prefix_of` h → get_nodes h0 v = Some ns → get_nodes h v = Some ns.
Proof.
  intros Hp. unfold get_nodes. destruct (shape_of h0 v) as [s|] eqn:Hs; [|done].
  by rewrite (prefix_shape_of _ _ _ _ Hp Hs).
Qed.

Lemma update_prefix (h0 h : store) l f :
  h0 `prefix_of` h → length h0 ≤ l → h0 `prefix_of` update l f h.
Proof.
  intros [k ->] Hl. unfold update. rewrite alter_app_r_alt by done. by eexists.
Qed.

Lemma prefix_app_trans (h0 h ext : store) : h0 `prefix_of` h → h0 `prefix_of` h ++ ext.
Proof. apply prefix_app_r. Qed.

Section clone_total.
Context (f : value → store → option (value * store)) (Hext : extending f).

Lemma traverse_list_total (h0 : store) vs :
  (∀ c, c ∈ vs → ∀ h, h0 `prefix_of` h → is_Some (f c h)) →
  ∀ h, h0 `prefix_of` h → is_Some (traverse_list f vs h).
Proof.
  induction vs as [|v vs IH]; intros Hc h Hp; simpl; [by eexists|].
  destruct (Hc v (list_elem_of_here _ _) h Hp) as [[v1 h1] E1]. rewrite E1. simpl.
  destruct (Hext _ _ _ _ E1) as [e1 ->].
  destruct (IH (λ c Hin, Hc c (list_elem_of_further _ _ _ Hin)) (h ++ e1)) as [[vs1 h2] E2];
    [by apply prefix_app_r|].
  rewrite E2. by eexists.
Qed.

Lemma traverse_total (h0 : store) s :
  (∀ c, c ∈ children_of s → ∀ h, h0 `prefix_of` h → is_Some (f c h)) →
  ∀ h, h0 `prefix_of` h → is_Some (traverse f s h).
Proof.
  intros Hc h Hp.
  destruct s; simpl in *; try (by eexists);
    try (destruct (traverse_list_total h0 _ Hc h Hp) as [[??] ->]; by eexists).
  all: repeat match goal with
    | |- context [f ?v ?h1] =>
      let E := fresh "E" in
      destruct (Hc v ltac:(set_solver) h1) as [[??] E];
      [eauto using prefix_app_r|];
      rewrite E; simpl; apply Hext in E; destruct E as [? ->]
    end; by eexists.
Qed.
End clone_total.

Lemma clone_total d : ∀ (h0 : store) v h,
  bounded h0 d v = Datatypes.true → h0 `prefix_of` h → is_Some (clone d v h).
Proof.
  induction d as [|d IH]; intros h0 v h Hb Hp; simpl in *; [done|].
  destruct v as [l|]; [|by eexists].
  destruct (nodes.constant l); [by eexists|]. simpl in Hb.
  destruct (h0 !! l) as [o|] eqn:Ho; [|done].
  rewrite (prefix_lookup_Some _ _ _ _ Ho Hp).
  destruct (traverse_total (clone d) (clone_extends d) h0 (nodes.shp o)) with (h := h)
    as [[s h1] E]; [|done|].
  - intros c Hin h' Hp'. eapply IH; [|done].
    rewrite forallb_forall in Hb. by apply Hb, list_elem_of_In.
  - rewrite E. by eexists.
Qed.

(** The copy of an object that is no constant is a new object of the same
    variant, the last one of the store. *)
Lemma clone_fresh n (h : store) l o v' h' :
  clone n (Some l) h = Some (v', h') →
  nodes.constant l = Datatypes.false →
  h !! l = Some o →
  ∃ ext s', h' = h ++ ext ++ [nodes.Node (nodes.lineno o) (nodes.source o) s']
            ∧ v' = Some (length (h ++ ext))
            ∧ skeleton s' = skeleton (nodes.shp o).
Proof.
  intros H Hc Ho. destruct n as [|n]; [done|]. cbn [clone] in H. rewrite Hc, Ho in H.
  destruct (traverse (clone n) (nodes.shp o) h) as [[s h1]|] eqn:E; [|done].
  simplify_eq/=. destruct (traverse_extends _ _ (clone_extends n) _ _ _ E) as [[e ->] Hsk].
  exists e, s. by rewrite <- app_assoc.
Qed.

(** [node.clone()] on a finite tree returns: the copy is a new object of the
    same variant, and nothing that was there before changes. *)
Lemma clone_node_fresh fuel (h0 : store) st l s :
  h0 `prefix_of` heap st →
  bounded h0 fuel (Some l) = Datatypes.true →
  nodes.constant l = Datatypes.false →
  shape_of h0 (Some l) = Some s →
  ∃ l' h1 s',
    clone_node fuel (Some l) st = Ret (Some l') (set_heap h1 st)
    ∧ heap st `prefix_of` h1
    ∧ length (heap st) ≤ l'
    ∧ shape_of h1 (Some l') = Some s'
    ∧ skeleton s' = skeleton s.
Proof.
  intros Hp Hb Hc Hs.
  destruct (clone_total fuel h0 (Some l) (heap st) Hb Hp) as [[v' h1] E].
  simpl in Hs. destruct (h0 !! l) as [o|] eqn:Ho; [|done]. simplify_eq/=.
  pose proof (prefix_lookup_Some _ _ _ _ Ho Hp) as Ho'.
  destruct (clone_fresh _ _ _ _ _ _ E Hc Ho') as (ext & s' & -> & -> & Hsk).
  exists (length (heap st ++ ext)), (heap st ++ ext ++ [nodes.Node (nodes.lineno o) (nodes.source o) s']), s'.
  split; [|split; [|split; [|split]]].
  - unfold clone_node. step. by rewrite E.
  - by eexists.
  - rewrite length_app. lia.
  - simpl. rewrite app_assoc, lookup_app_r, Nat.sub_diag by done. done.
  - done.
Qed.

(** ** C8: a required argument that is missing *)

Section required_argument.
Context (C : collaborators) (fuel : nat).
Context (h0 : store) (fn : loc) (fname : string) (params blk args : value).
Context (argv : list value).
Context (Hfn : shape_of h0 (Some fn) = Some (nodes.Function fname params blk)).
Context (Hargs : get_nodes h0 args = Some argv).

(** One round of the parameter loop, up to the test of the bound value. *)
Lemma bind_params_cons (l : loc) (nm : string) (d : value) rest i st :
  h0 `prefix_of` heap st →
  bounded h0 fuel (Some l) = Datatypes.true →
  nodes.constant l = Datatypes.false →
  shape_of h0 (Some l) = Some (nodes.Ident nm d) →
  ∃ h2,
    h0 `prefix_of` h2
    ∧ bind_params C fuel fn args (Some l :: rest) i st
      = (if instanceof h2 (bound_value argv i d) is_Null
         then throw (required_argument_error nm fname)
         else scope_add nm (bound_value argv i d) ;;
              bind_params C fuel fn args rest (S i)) (set_heap h2 st).
Proof.
  intros Hp Hb Hc Hs.
  destruct (clone_node_fresh fuel h0 st l _ Hp Hb Hc Hs)
    as (l' & h1 & s' & Hclone & Hp1 & Hl' & Hs' & Hsk).
  destruct s'; simplify_eq/=.
  set (bv := bound_value argv i d).
  exists (update l' (set_val bv) h1).
  assert (Hp2 : h0 `prefix_of` update l' (set_val bv) h1).
  { apply update_prefix; [by etrans|]. apply prefix_length in Hp. lia. }
  split; [done|].
  erewrite bind_Ret by (apply nodes_of_Ret; by eapply prefix_get_nodes).
  erewrite bind_Ret by (apply (the_shape_Ret _ _ (Some l)); by eapply prefix_shape_of).
  simpl. fold (bound_value argv i d). fold bv.
  repeat step. simpl.
  assert (Hl2 : shape_of (update l' (set_val bv) h1) (Some l') = Some (nodes.Ident nm bv)).
  { rewrite shape_of_update, decide_True by done.
    change (shape_of h1 (Some l')) with (nodes.shp <$> h1 !! l'). by rewrite Hs'. }
  destruct (instanceof _ bv is_Null).
  - unfold throw, required_argument_error, toString. f_equal.
    change (nodes.shp <$> update l' (set_val bv) h1 !! l')
      with (shape_of (update l' (set_val bv) h1) (Some l')).
    rewrite Hl2. by rewrite (prefix_shape_of _ _ (Some fn) _ Hp2 Hfn).
  - by step.
Qed.

(** The loop throws at the first parameter that is left without a value. *)
Lemma bind_params_unsatisfied (p : value) (pname : string) post : ∀ pre i st,
  h0 `prefix_of` heap st →
  stack st ≠ [] →
  Forall (λ q, bounded h0 fuel q = Datatypes.true) (pre ++ [p]) →
  (∀ j q, pre !! j = Some q → satisfied h0 argv (i + j) q) →
  unsatisfied h0 argv (i + length pre) p pname →
  ∃ st', bind_params C fuel fn args (pre ++ p :: post) i st
         = Throw (required_argument_error pname fname) st'.
Proof.
  induction pre as [|q pre IH]; intros i st Hp Hst Hb Hsat Hun.
  - destruct Hun as (l & d & -> & Hc & Hs & Hidx & Hnull).
    apply Forall_cons in Hb. destruct Hb as [Hb _].
    change ([] ++ Some l :: post) with (Some l :: post).
    destruct (bind_params_cons l pname d post i st Hp Hb Hc Hs) as (h2 & Hp2 & ->).
    simpl in Hidx. rewrite Nat.add_0_r in Hidx. unfold bound_value. rewrite Hidx.
    assert (instanceof h2 d is_Null = Datatypes.true) as ->; [|by eexists].
    unfold instanceof in *. destruct (shape_of h0 d) as [s|] eqn:Hd; [|done].
    by rewrite (prefix_shape_of _ _ _ _ Hp2 Hd).
  - destruct (Hsat 0 q eq_refl) as (l & nm & d & -> & Hc & Hs & Hval).
    rewrite <- app_comm_cons in Hb. apply Forall_cons in Hb. destruct Hb as [Hbq Hb].
    rewrite <- app_comm_cons.
    destruct (bind_params_cons l nm d (pre ++ p :: post) i st Hp Hbq Hc Hs)
      as (h2 & Hp2 & ->).
    rewrite Nat.add_0_r in Hval. simpl in Hun.
    assert (instanceof h2 (bound_value argv i d) is_Null = Datatypes.false) as ->.
    { destruct Hval as [->|(s & Hv & Hn)]; [done|].
      unfold instanceof. by rewrite (prefix_shape_of _ _ _ _ Hp2 Hv). }
    destruct (stack st) as [|f k] eqn:Hk; [done|].
    unfold scope_add. erewrite bind_Ret.
    2:{ erewrite bind_Ret by (apply the_currentFrame_Ret; simpl; by rewrite Hk).
        apply modify_Ret. }
    apply IH; simpl; try done.
    + intros j q' Hq. replace (S (i + j)) with (i + S j) by lia. by apply Hsat.
    + by replace (S (i + length pre)) with (i + S (length pre)) by lia.
Qed.
End required_argument.

(** C8: in an invocation of a user-defined function whose parameter at index
    [i] is the first to receive neither a positional argument nor a default
    other than a null node, [invokeFunction] throws the error that names this
    parameter and the function.  The error and the state it is thrown in are
    the same whatever [this.visit] would do: the body is not evaluated. *)
Theorem invokeFunction_required_argument (C : collaborators) (fuel : nat) (fn : loc)
    (args : value) (st : evaluator) (fname : string) (params : value) (b : loc)
    (ps argv : list value) (i : nat) (p : value) (pname : string) :
  shape_of (heap st) (Some fn) = Some (nodes.Function fname params (Some b)) →
  nodes.constant b = Datatypes.false →
  bounded (heap st) fuel (Some b) = Datatypes.true →
  get_nodes (heap st) params = Some ps →
  get_nodes (heap st) args = Some argv →
  Forall (λ q, bounded (heap st) fuel q = Datatypes.true) ps →
  (∀ j q, j < i → ps !! j = Some q → satisfied (heap st) argv j q) →
  ps !! i = Some p →
  unsatisfied (heap st) argv i p pname →
  ∃ st', ∀ visit,
    invokeFunction C fuel visit fn args st
    = Throw (required_argument_error pname fname) st'.
Proof.
  intros Hfn Hc Hb Hps Hargs Hbs Hsat Hp Hun.
  destruct (shape_of (heap st) (Some b)) as [sb|] eqn:Hsb.
  2:{ destruct fuel; [done|]. simpl in Hb, Hsb. rewrite Hc in Hb.
      by destruct (heap st !! b). }
  destruct (clone_node_fresh fuel (heap st) st b sb) as (b' & h1 & s' & Hclone & Hp1 & Hl' & Hs' & _);
    try done.
  set (parent := match s' with nodes.Block q _ => q | _ => None end).
  set (h2 := update b' (set_parent (Some (length h1)))
                    (h1 ++ [nodes.Node None None (nodes.Block parent [])])).
  set (st2 := set_stack (new_Frame (Some (length h1)) :: stack st) (set_heap h2 st)).
  assert (Hp2 : heap st `prefix_of` h2).
  { apply update_prefix; [|done]. by apply prefix_app_r. }
  destruct (bind_params_unsatisfied C fuel (heap st) fn fname params (Some b) args argv
              Hfn Hargs p pname (drop (S i) ps) (take i ps) 0 st2) as [st' Hthrow]; try done.
  - rewrite <- (take_drop_middle _ _ _ Hp) in Hbs.
    rewrite Forall_app in Hbs. destruct Hbs as [H1 H2]. apply Forall_cons in H2.
    apply Forall_app. split; [done|]. apply Forall_cons. by split; [apply H2|].
  - intros j q Hq. apply lookup_take_Some in Hq. destruct Hq as [Hq Hj]. by apply Hsat.
  - simpl. rewrite length_take, Nat.min_l; [done|]. apply lookup_lt_Some in Hp. lia.
  - exists st'. intros visit. unfold invokeFunction.
    erewrite bind_Ret by (by apply the_shape_Ret). cbv beta iota.
    erewrite bind_Ret by exact Hclone.
    erewrite bind_Ret by (apply the_shape_Ret; exact Hs').
    do 4 step.
    erewrite bind_Ret by (apply nodes_of_Ret; apply (prefix_get_nodes _ _ _ _ Hp2 Hps)).
    rewrite <- (take_drop_middle _ _ _ Hp) at 1.
    by erewrite bind_Throw by exact Hthrow.
Qed.

(** ** Frames are pushed and popped in pairs *)

Section scoped.
Lemma same_frames_refl s : same_frames s s.
Proof. by split. Qed.

Lemma same_frames_trans s1 s2 s3 :
  same_frames s1 s2 → same_frames s2 s3 → same_frames s1 s3.
Proof. intros [H1 H2] [H3 H4]. split; congruence. Qed.

Lemma fixed_scoped {A} (m : M A) : fixed m → scoped m.
Proof. intros H st. specialize (H st). destruct (m st); [|done..]. rewrite H. by split. Qed.

Lemma fixed_ret {A} (a : A) : fixed (ret a).
Proof. by intros st. Qed.
Lemma fixed_throw {A} e : fixed (@throw A e).
Proof. by intros st. Qed.
Lemma fixed_timeout {A} : fixed (@timeout A).
Proof. by intros st. Qed.
Lemma fixed_gets {A} (f : evaluator → A) : fixed (gets f).
Proof. by intros st. Qed.
Lemma fixed_modify f : (∀ st, stack (f st) = stack st) → fixed (modify f).
Proof. intros Hf st. apply Hf. Qed.
Lemma fixed_deref {A} what (o : option A) : fixed (deref what o).
Proof. by destruct o. Qed.
Lemma fixed_lift {A} (r : error + A) : fixed (lift r).
Proof. by destruct r. Qed.
Lemma fixed_new ln src s : fixed (new ln src s).
Proof. by intros st. Qed.
Lemma fixed_materialize t : fixed (materialize t).
Proof. intros st. unfold materialize. by destruct (alloc t (heap st)). Qed.
Lemma fixed_materialize_all ts : fixed (materialize_all ts).
Proof. intros st. unfold materialize_all. by destruct (allocs ts (heap st)). Qed.
Lemma fixed_write l f : fixed (write l f).
Proof. by intros st. Qed.
Lemma fixed_the_shape what v : fixed (the_shape what v).
Proof. intros st. unfold the_shape. apply fixed_deref. Qed.
Lemma fixed_nodes_of v : fixed (nodes_of v).
Proof. intros st. unfold nodes_of. apply fixed_deref. Qed.
Lemma fixed_the_currentFrame : fixed the_currentFrame.
Proof. intros st. unfold the_currentFrame. apply fixed_deref. Qed.

Lemma fixed_bind {A B} (m : M A) (k : A → M B) :
  fixed m → (∀ a, fixed (k a)) → fixed (bind m k).
Proof.
  intros Hm Hk st. unfold bind. specialize (Hm st).
  destruct (m st) as [a st1|e st1|]; [|done..].
  specialize (Hk a st1). destruct (k a st1); congruence.
Qed.

Lemma fixed_clone_node fuel v : fixed (clone_node fuel v).
Proof.
  unfold clone_node. apply fixed_bind; [apply fixed_deref|]. intros _ st.
  by destruct (clone fuel v (heap st)) as [[v' h']|].
Qed.

Lemma scoped_bind {A B} (m : M A) (k : A → M B) :
  scoped m → (∀ a, scoped (k a)) → scoped (bind m k).
Proof.
  intros Hm Hk st. unfold bind. specialize (Hm st).
  destruct (m st) as [a st1|e st1|]; [|done..].
  specialize (Hk a st1). destruct (k a st1); [|done..]. by eapply same_frames_trans.
Qed.

(** [scope.add] on the current frame changes the scope of the top frame only. *)
Lemma scoped_scope_add name val : scoped (scope_add name val).
Proof.
  intros st. unfold scope_add, bind, the_currentFrame.
  destruct (stack st) as [|f k] eqn:Hk; simpl; [done|]. rewrite Hk. by split.
Qed.

(** Between [stack.push(frame)] and [stack.pop()]. *)
Lemma fixed_push {A} f (k : M A) : unwinds k → fixed (bind (stack_push f) (λ _, k)).
Proof.
  intros Hk st. unfold bind, stack_push, modify.
  specialize (Hk (set_stack (f :: stack st) st)). by destruct (k _).
Qed.

Lemma unwinds_bind {A B} (m : M A) (k : A → M B) :
  scoped m → (∀ a, unwinds (k a)) → unwinds (bind m k).
Proof.
  intros Hm Hk st. unfold bind. specialize (Hm st).
  destruct (m st) as [a st1|e st1|]; [|done..].
  specialize (Hk a st1). destruct (k a st1); [|done..].
  destruct Hm as [Hm _]. congruence.
Qed.

Lemma unwinds_pop {A} (k : M A) : fixed k → unwinds (bind stack_pop (λ _, k)).
Proof.
  intros Hk st. unfold bind, stack_pop, modify.
  specialize (Hk (set_stack (tail (stack st)) st)). by destruct (k _).
Qed.
End scoped.

Create HintDb fixed discriminated.
#[export] Hint Resolve fixed_ret fixed_throw fixed_timeout fixed_gets fixed_deref fixed_lift
  fixed_new fixed_materialize fixed_materialize_all fixed_write fixed_the_shape
  fixed_nodes_of fixed_the_currentFrame fixed_clone_node : fixed.

Ltac scoped_step :=
  match goal with
  | |- fixed (bind (stack_push _) _) => apply fixed_push
  | |- fixed (bind _ _) => apply fixed_bind; [|intros]
  | |- fixed (modify _) => apply fixed_modify; by intros []
  | |- fixed (match ?x with _ => _ end) => destruct x
  | |- fixed _ => by auto with fixed
  | |- unwinds (bind stack_pop _) => apply unwinds_pop
  | |- unwinds (bind _ _) => apply unwinds_bind; [|intros]
  | |- unwinds (match ?x with _ => _ end) => destruct x
  | |- scoped (bind _ _) => apply scoped_bind; [|intros]
  | |- scoped (match ?x with _ => _ end) => destruct x
  | |- scoped _ => by auto with fixed
  | |- scoped _ => apply fixed_scoped
  end.

Section scoped_methods.
Context (C : collaborators) (fuel : nat) (visit : value → M value).
Context (Hvisit : ∀ v, scoped (visit v)).

Hint Resolve scoped_scope_add : fixed.

Lemma fixed_first v : fixed (first v).
Proof. unfold first. repeat scoped_step. Qed.
Lemma fixed_toBoolean_node v : fixed (toBoolean_node C v).
Proof. unfold toBoolean_node. repeat scoped_step. Qed.

Hint Resolve fixed_first fixed_toBoolean_node : fixed.

Lemma scoped_visit_slots o count : ∀ i, scoped (visit_slots visit o i count).
Proof. induction count; intros i; simpl; repeat scoped_step. Qed.

Lemma scoped_visitRoot_loop budget blk : ∀ i, scoped (visitRoot_loop visit budget blk i).
Proof. induction budget; intros i; simpl; repeat scoped_step. Qed.

Lemma fixed_invoke_forEach body count : ∀ i, fixed (invoke_forEach body i count).
Proof. induction count; intros i; simpl; repeat scoped_step. Qed.

Hint Resolve scoped_visit_slots scoped_visitRoot_loop fixed_invoke_forEach : fixed.

Lemma fixed_invoke body : fixed (invoke body).
Proof. unfold invoke. repeat scoped_step. Qed.

Lemma scoped_bind_params fn args ps : ∀ i, scoped (bind_params C fuel fn args ps i).
Proof. induction ps; intros i; simpl; repeat scoped_step. Qed.

Lemma fixed_firsts vs : fixed (firsts vs).
Proof. induction vs; simpl; repeat scoped_step. Qed.

Lemma fixed_push_all r vs : fixed (push_all r vs).
Proof. induction vs; simpl; repeat scoped_step. Qed.

Hint Resolve fixed_invoke scoped_bind_params fixed_firsts fixed_push_all : fixed.

Lemma fixed_invokeFunction fn args : fixed (invokeFunction C fuel visit fn args).
Proof. unfold invokeFunction. repeat scoped_step. Qed.

Lemma fixed_invokeBuiltin f args : fixed (invokeBuiltin f args).
Proof. unfold invokeBuiltin. repeat scoped_step. Qed.

Lemma fixed_visitBlock blk : fixed (visitBlock visit blk).
Proof. unfold visitBlock. repeat scoped_step. Qed.

Lemma scoped_literalCall call args : scoped (literalCall visit call args).
Proof. unfold literalCall. repeat scoped_step. Qed.

Lemma fixed_lookupFunction name : fixed (lookupFunction C name).
Proof.
  intros st. unfold lookupFunction.
  destruct (Stack_lookup name (stack st)); [done|].
  destruct (functions st !! name); [done|].
  by destruct (bifs C !! name).
Qed.

Hint Resolve fixed_invokeFunction fixed_invokeBuiltin fixed_visitBlock scoped_literalCall
  fixed_lookupFunction : fixed.

Lemma scoped_visitCall call name args : scoped (visitCall C fuel visit call name args).
Proof. unfold visitCall. repeat scoped_step. Qed.

Lemma scoped_visitIdent ident name val : scoped (visitIdent visit ident name val).
Proof. unfold visitIdent. repeat scoped_step. Qed.

Lemma fixed_isDefined n : fixed (isDefined C n).
Proof. unfold isDefined. repeat scoped_step. Qed.

Hint Resolve fixed_isDefined : fixed.

Lemma scoped_visitBinOp op l r : scoped (visitBinOp C visit op l r).
Proof. unfold visitBinOp. repeat scoped_step. Qed.

Lemma scoped_visitUnaryOp op e : scoped (visitUnaryOp C visit op e).
Proof. unfold visitUnaryOp, assertType_Unit. repeat scoped_step. Qed.

Lemma scoped_visitTernary c t f : scoped (visitTernary C visit c t f).
Proof. unfold visitTernary. repeat scoped_step. Qed.

Lemma scoped_visitProperty prop name e : scoped (visitProperty visit prop name e).
Proof. unfold visitProperty. repeat scoped_step. Qed.

Lemma fixed_visitImport import path : fixed (visitImport C import path).
Proof. unfold visitImport. repeat scoped_step. Qed.

Lemma scoped_Visitor_visit l s : scoped (Visitor_visit C fuel visit l s).
Proof.
  destruct s; simpl; auto using scoped_visitCall, scoped_visitIdent, scoped_visitBinOp,
    scoped_visitUnaryOp, scoped_visitTernary, scoped_visitProperty, fixed_scoped,
    fixed_visitImport, fixed_visitBlock, fixed_ret.
  all: unfold visitGroup, visitSelector, visitExpression, visitRoot;
    repeat scoped_step.
Qed.

Lemma scoped_Evaluator_visit v : scoped (Evaluator_visit C fuel visit v).
Proof.
  intros st. unfold Evaluator_visit.
  destruct v as [l|]; [|done].
  destruct (heap st !! l) as [o|]; [|done].
  pose proof (scoped_Visitor_visit l (nodes.shp o) (set_lineno (nodes.lineno o) st)) as H.
  by destruct (Visitor_visit _ _ _ _ _ _).
Qed.
End scoped_methods.

Lemma scoped_visit C n : ∀ v, scoped (visit C n v).
Proof.
  induction n as [|n IH]; intros v; simpl; [apply fixed_scoped, fixed_timeout|].
  by apply scoped_Evaluator_visit.
Qed.

(** X1: a dispatch that completes normally leaves the frame stack with the
    frames below the top unchanged, scopes included, and with a top frame
    for the same block: whatever it binds, it binds in the frame that was
    current when it started, and every frame it pushed it has popped. *)
Theorem visit_binds_in_current_frame_only (C : collaborators) (n : nat) (nd : value)
    (st st' : evaluator) (v : value) :
  visit C n nd st = Ret v st' →
  tail (stack st') = tail (stack st)
  ∧ block <$> head (stack st') = block <$> head (stack st)
  ∧ length (stack st') = length (stack st).
Proof.
  intros H. pose proof (scoped_visit C n nd st) as S. rewrite H in S.
  destruct S as [Ht Hh]. split; [done|]. split; [done|].
  destruct (stack st) as [|f k], (stack st') as [|f' k']; simpl in *; simplify_eq; done.
Qed.

(** X2: a block that is visited to the end and a function that is invoked to
    the end leave the frame stack exactly as it was: the frame of the block,
    and the frame holding the arguments of the call, are gone, and the
    bindings made in them with it. *)
Theorem block_and_call_leave_no_frame (C : collaborators) (n : nat)
    (st st' : evaluator) (v : value) :
  (∀ blk, visitBlock (visit C n) blk st = Ret v st' → stack st' = stack st)
  ∧ (∀ fn args, invokeFunction C n (visit C n) fn args st = Ret v st' →
       stack st' = stack st).
Proof.
  split.
  - intros blk H. pose proof (fixed_visitBlock (visit C n) (scoped_visit C n) blk st) as F.
    by rewrite H in F.
  - intros fn args H.
    pose proof (fixed_invokeFunction C n (visit C n) (scoped_visit C n) fn args st) as F.
    by rewrite H in F.
Qed.

(** ** Further properties of the methods *)

Lemma bind_Ret_inv {A B} (m : M A) (k : A → M B) st b st' :
  bind m k st = Ret b st' → ∃ a st1, m st = Ret a st1 ∧ k a st1 = Ret b st'.
Proof. unfold bind. destruct (m st) as [a st1|e st1|]; [eauto|done..]. Qed.

(** X3: whether a dispatch returns or throws, every object that was in the
    store is still there, at the same place, with the same variant, names,
    operators, [lineno] and [source]; the store never shrinks. *)
Theorem visit_keeps_every_object (C : collaborators) (n : nat) (nd : value)
    (st st' : evaluator) :
  (∃ v, visit C n nd st = Ret v st') ∨ (∃ e, visit C n nd st = Throw e st') →
  length (heap st) ≤ length (heap st')
  ∧ ∀ l o, heap st !! l = Some o →
      ∃ o', heap st' !! l = Some o'
            ∧ nodes.lineno o' = nodes.lineno o
            ∧ nodes.source o' = nodes.source o
            ∧ skeleton (nodes.shp o') = skeleton (nodes.shp o).
Proof.
  intros H. pose proof (stable_visit C n nd st) as S.
  assert (E : evolves (heap st) (heap st')).
  { destruct H as [[v H]|[e H]]; by rewrite H in S. }
  split; [by apply evolves_length|]. intros l o Ho.
  destruct (E l o Ho) as (o' & Ho' & H1 & H2 & H3). eauto.
Qed.





(** X6: after the operand is visited and reduced to its first value, every
    unary operator but [!] throws when that value is not a unit, before
    anything is written; [!] asks for no type and returns the boolean
    constant opposite to the truthiness of the value, which it leaves as it
    is. *)
Theorem visitUnaryOp_operand_check (C : collaborators) (visit : value → M value)
    (expr e n : value) (st st1 : evaluator) :
  visit expr st = Ret e st1 →
  first e st1 = Ret n st1 →
  (∀ op, op ≠ "!" → instanceof (heap st1) n is_Unit = Datatypes.false →
     ∃ err, visitUnaryOp C visit op expr st = Throw err st1) ∧
  (∀ l, n = Some l →
     visitUnaryOp C visit "!" expr st
     = Ret (Some (nodes.of_bool (negb (toBoolean C (heap st1) l)))) st1).
Proof.
  intros Hv Hf. split.
  - intros op Hop Hn. unfold visitUnaryOp. do 2 step.
    destruct (String.eqb_spec "!" op) as [<-|_]; [done|]. simpl.
    eexists. erewrite bind_Throw; [done|].
    unfold assertType_Unit. step. by rewrite Hn.
  - intros l ->. unfold visitUnaryOp. do 2 step. simpl. step.
    unfold toBoolean_node. repeat step. unfold ret. f_equal.
    by destruct (toBoolean C (heap st1) l).
Qed.

(** X7: [x is defined] never visits an operand.  On an identifier it yields
    a boolean node that tells whether the name is bound in the lexical
    environment, and changes nothing else; on anything else it throws, and
    the right operand plays no part. *)
Theorem is_defined_does_not_evaluate (C : collaborators) (visit : value → M value)
    (lhs rhs : value) (st : evaluator) :
  (∀ name val, shape_of (heap st) lhs = Some (nodes.Ident name val) →
     let b := bool_decide (is_Some (Stack_lookup name (stack st))) in
     visitBinOp C visit "is defined" lhs rhs st
     = Ret (Some (length (heap st)))
           (set_heap (heap st ++ [nodes.Node None None (nodes.Boolean b)]) st)) ∧
  (instanceof (heap st) lhs is_Ident = Datatypes.false →
     ∃ err, visitBinOp C visit "is defined" lhs rhs st = Throw err st).
Proof.
  split.
  - intros name val Hs b. unfold visitBinOp. simpl. unfold isDefined. step.
    rewrite Hs. by repeat step.
  - intros Hn. unfold visitBinOp. simpl. unfold isDefined. step.
    unfold instanceof in Hn. destruct (shape_of (heap st) lhs) as [[]|]; try done;
      by eexists.
Qed.

(** X8: for [||], [&&] and [is a] the right operand is handed to
    [left.operate] as it is: [left.coerce] is not consulted. *)
Theorem visitBinOp_logical_without_coercion (C : collaborators) (visit : value → M value)
    (op : string) (lhs rhs : value) (st st1 st2 : evaluator) (lv rv : value) (l : loc)
    (r : value) :
  ignore op = Datatypes.true →
  visit lhs (set_return Datatypes.true st) = Ret lv st1 →
  first lv st1 = Ret (Some l) st1 →
  visit rhs st1 = Ret rv st2 →
  first rv st2 = Ret r st2 →
  visitBinOp C visit op lhs rhs st =
    match operate C (heap st2) op l r with
    | inl e => Throw e (set_return (return_ st) st2)
    | inr t =>
      let '(res, h3) := alloc t (heap st2) in
      visit res (set_heap h3 (set_return (return_ st) st2))
    end.
Proof.
  intros Hig Hl Hlf Hr Hrf. unfold visitBinOp.
  destruct (String.eqb_spec "is defined" op) as [<-|_]; [done|].
  repeat step. rewrite Hig. simpl.
  unfold bind, materialize, lift, gets, deref, ret, throw. simpl.
  destruct (operate C (heap st2) op l r) as [e|t]; simpl; [done|].
  by destruct (alloc t (heap st2)) as [res h3].
Qed.

(** The node a lexical binding stands for as a callee: the first node of an
    expression, the node itself otherwise. *)
Lemma visitCall_bound (C : collaborators) (n : nat) (call : loc) (name : string)
    (args : value) (st st1 : evaluator) (l0 : loc) (a : value) :
  Stack_lookup name (stack st) = Some l0 →
  visit C n args (set_return Datatypes.true (set_calling (Some name) st)) = Ret a st1 →
  visitCall C n (visit C n) call name args st
  = (let target := match shape_of (heap st) (Some l0) with
                   | Some (nodes.Expression ns) => index ns 0
                   | _ => Some l0
                   end in
     match target with
     | Some l => if instanceof (heap st1) target is_Function
                 then invokeFunction C n (visit C n) l a else ret None
     | None => ret None
     end) (set_return (return_ st) st1).
Proof.
  intros Hl Ha. unfold visitCall.
  erewrite bind_Ret by (unfold lookupFunction; rewrite Hl; reflexivity).
  simpl. repeat step. simpl.
  destruct (nodes.shp <$> heap st !! l0) as [[]|]; by step.
Qed.

(** X9: a name bound in the lexical environment to a function definition
    (or to an expression that starts with one) is called as that function,
    with the arguments visited in value-returning mode and the flag handed
    back first, whatever the external function table and the builtin
    registry hold under that name. *)
Theorem visitCall_lexical_function_first (C : collaborators) (n : nat) (call : loc)
    (name : string) (args : value) (st st1 : evaluator) (l0 f : loc) (a : value) :
  Stack_lookup name (stack st) = Some l0 →
  match shape_of (heap st) (Some l0) with
  | Some (nodes.Expression ns) => index ns 0
  | _ => Some l0
  end = Some f →
  instanceof (heap st) (Some f) is_Function = Datatypes.true →
  visit C n args (set_return Datatypes.true (set_calling (Some name) st)) = Ret a st1 →
  visitCall C n (visit C n) call name args st
  = invokeFunction C n (visit C n) f a (set_return (return_ st) st1).
Proof.
  intros Hl Ht Hf Ha. rewrite (visitCall_bound C n call name args st st1 l0 a Hl Ha).
  cbv zeta. rewrite Ht.
  pose proof (stable_visit C n args (set_return Datatypes.true (set_calling (Some name) st)))
    as Hst. rewrite Ha in Hst. simpl in Hst.
  unfold instanceof in *. destruct (shape_of (heap st) (Some f)) as [s|] eqn:Hs; [|done].
  destruct (evolves_skeleton _ _ _ _ Hst Hs) as (s' & Hs' & Hsk).
  by rewrite Hs', (skeleton_is_Function _ _ Hsk), Hf.
Qed.


Lemma firsts_pure vs : ∀ st xs st', firsts vs st = Ret xs st' → st' = st.
Proof.
  induction vs as [|v vs IH]; intros st xs st' H; simpl in H.
  - unfold ret in H. by simplify_eq.
  - apply bind_Ret_inv in H. destruct H as (x & s1 & Hx & H).
    apply first_pure in Hx. subst.
    apply bind_Ret_inv in H. destruct H as (ys & s2 & Hy & H).
    apply IH in Hy. subst. unfold ret in H. by simplify_eq.
Qed.

(** X11: a native function is called on the first values of the arguments.
    In value-returning mode, a result that is no expression is wrapped into
    a one-element expression and the call yields that very result; a result
    that is an expression is not wrapped and the call yields its last node.
    An error of the native function is thrown as it is, with the store
    untouched. *)
Theorem invokeBuiltin_returns_result (fn : native) (args : value) (st : evaluator)
    (ns xs : list value) :
  return_ st = Datatypes.true →
  get_nodes (heap st) args = Some ns →
  firsts ns st = Ret xs st →
  (∀ t body h1, fn (heap st) xs = inr t → alloc t (heap st) = (body, h1) →
     (instanceof h1 body is_Expression = Datatypes.false →
        invokeBuiltin fn args st
        = Ret body (set_heap (h1 ++ [nodes.Node None None (nodes.Expression [body])]) st)) ∧
     (∀ bs, shape_of h1 body = Some (nodes.Expression bs) →
        invokeBuiltin fn args st = Ret (mjoin (last bs)) (set_heap h1 st))) ∧
  (∀ e, fn (heap st) xs = inl e → invokeBuiltin fn args st = Throw e st).
Proof.
  intros Hr Hns Hx. split.
  - intros t body h1 Ht Ha. split.
    + intros Hne. unfold invokeBuiltin. repeat step. rewrite Ht. step.
      erewrite bind_Ret by (unfold materialize; rewrite Ha; reflexivity).
      step. simpl heap. rewrite Hne. repeat step.
      unfold invoke. repeat step. simpl return_. rewrite Hr.
      erewrite bind_Ret.
      2:{ apply nodes_of_Ret. unfold get_nodes, shape_of. simpl.
          by rewrite lookup_app_r, Nat.sub_diag by done. }
      unfold ret, index. simpl. by destruct st.
    + intros bs Hb. unfold invokeBuiltin. repeat step. rewrite Ht. step.
      erewrite bind_Ret by (unfold materialize; rewrite Ha; reflexivity).
      step. simpl heap. unfold instanceof. rewrite Hb. simpl is_Expression. repeat step.
      unfold invoke. repeat step. simpl return_. rewrite Hr.
      erewrite bind_Ret
        by (apply nodes_of_Ret; unfold get_nodes; simpl heap; by rewrite Hb).
      unfold ret. f_equal. destruct bs as [|b0 bs]; [done|].
      unfold index. rewrite last_lookup. simpl. by rewrite Nat.sub_0_r.
  - intros e He. unfold invokeBuiltin. repeat step. by rewrite He.
Qed.

(** X12: a property is evaluated as a plain property -- its expression
    visited in value-returning mode and stored back, the property node
    returned -- whenever no function is bound to its name, and also when its
    name is the one in [this.calling]: inside the function of that name the
    property is not taken for a call of the function. *)
Theorem visitProperty_plain (visit : value → M value) (prop : loc) (name : string)
    (expr e : value) (st st1 : evaluator) :
  instanceof (heap st) (Stack_lookup name (stack st)) is_Function = Datatypes.false
  ∨ calling st = Some name →
  visit expr (set_return Datatypes.true st) = Ret e st1 →
  visitProperty visit prop name expr st
  = Ret (Some prop)
        (set_return (return_ st) (set_heap (update prop (set_expr e) (heap st1)) st1)).
Proof.
  intros Hg Hv. unfold visitProperty. do 3 step.
  assert (instanceof (heap st) (Stack_lookup name (stack st)) is_Function
          && negb (bool_decide (Some name = calling st)) = Datatypes.false) as ->.
  { destruct Hg as [->| ->]; [done|]. rewrite bool_decide_eq_true_2 by done.
    apply andb_false_r. }
  by repeat step.
Qed.

(** X13: a property whose name is bound to a function definition, and is not
    the name in [this.calling], is a call in disguise: a call node with the
    name of the property and its expression as arguments is created and
    visited with [this.calling] set to the name, and [this.calling] is
    cleared afterwards.  The property node itself is not touched. *)
Theorem visitProperty_calls_mixin (visit : value → M value) (prop : loc) (name : string)
    (expr : value) (st : evaluator) :
  instanceof (heap st) (Stack_lookup name (stack st)) is_Function = Datatypes.true →
  calling st ≠ Some name →
  let call := length (heap st) in
  let st0 := set_heap (heap st ++ [nodes.Node None None (nodes.Call name expr)])
                      (set_calling (Some name) st) in
  visitProperty visit prop name expr st
  = match visit (Some call) st0 with
    | Ret r s => Ret r (set_calling None s)
    | other => other
    end.
Proof.
  intros Hf Hc call st0. unfold visitProperty. do 3 step. rewrite Hf.
  rewrite bool_decide_eq_false_2 by congruence. simpl. do 2 step.
  unfold bind. subst call st0. simpl heap.
  destruct (visit _ _); reflexivity.
Qed.

(** X14: an import whose path ends in [.css] is left alone: the node is
    returned, no file is searched, read or parsed, and nothing changes. *)
Theorem visitImport_css_untouched (C : collaborators) (import : loc) (path : string)
    (st : evaluator) :
  ends_with ".css" path = Datatypes.true →
  visitImport C import path st = Ret (Some import) st.
Proof. intros H. unfold visitImport. do 3 step. by rewrite H. Qed.

(** X15: when every parameter of a function receives a value, the parameter
    loop of [invokeFunction] completes and binds, in the current frame only,
    each parameter name to the positional argument at the index of the
    parameter, or to the declared default where there is no such argument:
    the node itself, not a copy.  Where two parameters share a name the later
    one wins; names that are no parameter keep their binding. *)
Theorem bind_params_binds_each_parameter (C : collaborators) (fuel : nat) (h0 : store)
    (fn : loc) (fname : string) (params blk args : value) (argv ps : list value) :
  shape_of h0 (Some fn) = Some (nodes.Function fname params blk) →
  get_nodes h0 args = Some argv →
  Forall (λ q, bounded h0 fuel q = Datatypes.true) ps →
  ∀ (i : nat) (st : evaluator) (f : frame) (k : list frame),
  h0 `prefix_of` heap st →
  stack st = f :: k →
  (∀ j q, ps !! j = Some q → satisfied h0 argv (i + j) q) →
  ∃ st' sc,
    bind_params C fuel fn args ps i st = Ret tt st'
    ∧ h0 `prefix_of` heap st'
    ∧ stack st' = Frame sc (block f) :: k
    ∧ (∀ j l nm d, ps !! j = Some (Some l) →
         shape_of h0 (Some l) = Some (nodes.Ident nm d) →
         Some nm ∉ param_name h0 <$> drop (S j) ps →
         sc !! nm = Some (bound_value argv (i + j) d))
    ∧ (∀ nm, Some nm ∉ param_name h0 <$> ps → sc !! nm = scope f !! nm).
Proof.
  intros Hfn Hargs Hb. induction Hb as [|q ps Hq Hb IH]; intros i st f k Hp Hk Hsat.
  - exists st, (scope f). simpl. split; [done|]. split; [done|].
    split; [rewrite Hk; by destruct f|]. split; [|done].
    intros j l nm d Hj. by rewrite lookup_nil in Hj.
  - destruct (Hsat 0 q eq_refl) as (l & nm & d & -> & Hc & Hs & Hval).
    destruct (bind_params_cons C fuel h0 fn fname params blk args argv Hfn Hargs
                l nm d ps i st Hp Hq Hc Hs) as (h2 & Hp2 & ->).
    rewrite Nat.add_0_r in Hval.
    assert (instanceof h2 (bound_value argv i d) is_Null = Datatypes.false) as ->.
    { destruct Hval as [->|(s & Hv & Hn)]; [done|].
      unfold instanceof. by rewrite (prefix_shape_of _ _ _ _ Hp2 Hv). }
    unfold scope_add. erewrite bind_Ret.
    2:{ erewrite bind_Ret by (apply the_currentFrame_Ret; simpl; by rewrite Hk).
        apply modify_Ret. }
    simpl stack. rewrite Hk. simpl tail.
    edestruct (IH (S i) (set_stack (Scope_add nm (bound_value argv i d) f :: k)
                                   (set_heap h2 st))
                 (Scope_add nm (bound_value argv i d) f) k)
      as (st' & sc & He & Hp' & Hst & Hbind & Hkeep); [done|done| |].
    { intros j q' Hq'. replace (S i + j) with (i + S j) by lia. by apply Hsat. }
    exists st', sc. split; [done|]. split; [done|]. split; [done|]. split.
    + intros [|j] l' nm' d' Hj Hs' Hn; simpl in Hj, Hn.
      * simplify_eq. rewrite Hkeep by done. simpl. rewrite Nat.add_0_r.
        by first [rewrite lookup_insert_eq|rewrite lookup_insert].
      * rewrite (Hbind j l' nm' d' Hj Hs' Hn). f_equal. f_equal. lia.
    + intros nm' Hn. rewrite fmap_cons in Hn. apply not_elem_of_cons in Hn as [Hne Hn].
      rewrite (Hkeep nm' Hn). simpl. rewrite lookup_insert_ne; [done|].
      unfold param_name in Hne. rewrite Hs in Hne. congruence.
Qed.

(** X16: a colour, literal, boolean, unit, string, null node, function
    definition or charset evaluates to itself and nothing but the current
    line number changes: in particular a function definition is not entered
    when it is visited.  A group, selector, expression, root or block is
    evaluated in place: its visit, when it returns, returns the node that was
    given. *)
Theorem visit_leaf_and_container (C : collaborators) (n : nat) (l : loc) (o : node)
    (st : evaluator) :
  heap st !! l = Some o →
  (leaf (nodes.shp o) = Datatypes.true →
     visit C (S n) (Some l) st = Ret (Some l) (set_lineno (nodes.lineno o) st)) ∧
  (container (nodes.shp o) = Datatypes.true →
     ∀ v st', visit C (S n) (Some l) st = Ret v st' → v = Some l).
Proof.
  intros Ho. split.
  - intros Hl. simpl. unfold Evaluator_visit. rewrite Ho.
    by destruct (nodes.shp o).
  - intros Hc v st' H. simpl in H. unfold Evaluator_visit in H. rewrite Ho in H.
    destruct (Visitor_visit _ _ _ _ _ _) as [v0 s0| |] eqn:E; [|done|done].
    simplify_eq. destruct (nodes.shp o); try done; simpl in E.
    + unfold visitGroup in E.
      apply bind_Ret_inv in E as (? & ? & _ & E).
      apply bind_Ret_inv in E as (? & ? & _ & E). unfold ret in E. by simplify_eq.
    + unfold visitSelector in E.
      apply bind_Ret_inv in E as (? & ? & _ & E).
      apply bind_Ret_inv in E as (? & ? & _ & E). unfold ret in E. by simplify_eq.
    + unfold visitExpression in E.
      apply bind_Ret_inv in E as (? & ? & _ & E).
      apply bind_Ret_inv in E as (? & ? & _ & E). unfold ret in E. by simplify_eq.
    + unfold visitRoot in E.
      apply bind_Ret_inv in E as (? & ? & _ & E). unfold ret in E. by simplify_eq.
    + unfold visitBlock in E.
      apply bind_Ret_inv in E as (? & ? & _ & E).
      apply bind_Ret_inv in E as (? & ? & _ & E).
      apply bind_Ret_inv in E as (? & ? & _ & E).
      apply bind_Ret_inv in E as (? & ? & _ & E). unfold ret in E. by simplify_eq.
Qed.

(** X17: a reference to a name with no binding in the lexical environment
    evaluates to the identifier node itself; a reference to a bound name
    evaluates to whatever the bound node evaluates to at that moment -- the
    binding is visited again at every reference. *)
Theorem visit_reference (C : collaborators) (n : nat) (l : loc) (ln : option nat)
    (src : option string) (name : string) (st : evaluator) :
  heap st !! l = Some (nodes.Node ln src (nodes.Ident name (Some nodes.null))) →
  (Stack_lookup name (stack st) = None →
     visit C (S n) (Some l) st = Ret (Some l) (set_lineno ln st)) ∧
  (∀ b v st', Stack_lookup name (stack st) = Some b →
     visit C n (Some b) (set_lineno ln st) = Ret v st' →
     visit C (S n) (Some l) st = Ret v st').
Proof.
  intros Ho. split.
  - intros Hn. simpl. unfold Evaluator_visit. rewrite Ho. simpl.
    unfold visitIdent. rewrite decide_True by done. step. simpl. by rewrite Hn.
  - intros b v st' Hb Hv. simpl. unfold Evaluator_visit. rewrite Ho. simpl.
    unfold visitIdent. rewrite decide_True by done. step. simpl. rewrite Hb.
    by rewrite Hv.
Qed.

(** ** The configuration is left alone *)

Section settled.
Lemma settled_ret {A} (a : A) : settled (ret a).
Proof. by intros st. Qed.
Lemma settled_throw {A} e : settled (@throw A e).
Proof. by intros st. Qed.
Lemma settled_timeout {A} : settled (@timeout A).
Proof. by intros st. Qed.
Lemma settled_gets {A} (f : evaluator → A) : settled (gets f).
Proof. by intros st. Qed.
Lemma settled_modify f :
  (∀ st, configuration (f st) = configuration st) → settled (modify f).
Proof. intros Hf st. apply Hf. Qed.
Lemma settled_deref {A} what (o : option A) : settled (deref what o).
Proof. by destruct o. Qed.
Lemma settled_lift {A} (r : error + A) : settled (lift r).
Proof. by destruct r. Qed.
Lemma settled_new ln src s : settled (new ln src s).
Proof. by intros st. Qed.
Lemma settled_materialize t : settled (materialize t).
Proof. intros st. unfold materialize. by destruct (alloc t (heap st)). Qed.
Lemma settled_materialize_all ts : settled (materialize_all ts).
Proof. intros st. unfold materialize_all. by destruct (allocs ts (heap st)). Qed.
Lemma settled_write l f : settled (write l f).
Proof. by intros st. Qed.
Lemma settled_the_shape what v : settled (the_shape what v).
Proof. intros st. unfold the_shape. apply settled_deref. Qed.
Lemma settled_nodes_of v : settled (nodes_of v).
Proof. intros st. unfold nodes_of. apply settled_deref. Qed.
Lemma settled_the_currentFrame : settled the_currentFrame.
Proof. intros st. unfold the_currentFrame. apply settled_deref. Qed.

Lemma settled_bind {A B} (m : M A) (k : A → M B) :
  settled m → (∀ a, settled (k a)) → settled (bind m k).
Proof.
  intros Hm Hk st. unfold bind. specialize (Hm st).
  destruct (m st) as [a st1|e st1|]; [|done..].
  specialize (Hk a st1). destruct (k a st1); congruence.
Qed.

Lemma settled_clone_node fuel v : settled (clone_node fuel v).
Proof.
  unfold clone_node. apply settled_bind; [apply settled_deref|]. intros _ st.
  by destruct (clone fuel v (heap st)) as [[v' h']|].
Qed.

(** [this.paths.push(relative)] ... [this.paths.pop()]: in between, the
    paths are only read. *)
Lemma settled_search {A} (x : string) (f : list string → M A) :
  (∀ ps, settled (f ps)) →
  settled (modify (λ st, set_paths (paths st ++ [x]) st) ;;
           let* ps := gets paths in
           modify (λ st, set_paths (removelast (paths st)) st) ;; f ps).
Proof.
  intros Hf st. unfold bind, modify, gets. simpl.
  specialize (Hf (paths st ++ [x]) (set_paths (removelast (paths st ++ [x])) st)).
  destruct (f _ _) as [a st'|e st'|]; [| |done];
    rewrite Hf; unfold configuration; simpl; by rewrite removelast_last.
Qed.
End settled.

Create HintDb settled discriminated.
#[export] Hint Resolve settled_ret settled_throw settled_timeout settled_gets settled_deref
  settled_lift settled_new settled_materialize settled_materialize_all settled_write
  settled_the_shape settled_nodes_of settled_the_currentFrame settled_clone_node : settled.

Ltac settled_step :=
  match goal with
  | |- settled (bind _ _) => apply settled_bind; [|intros]
  | |- settled (modify _) => apply settled_modify; by intros []
  | |- settled (match ?x with _ => _ end) => destruct x
  | |- settled _ => by auto with settled
  end.

Section settled_methods.
Context (C : collaborators) (fuel : nat) (visit : value → M value).
Context (Hvisit : ∀ v, settled (visit v)).

Lemma settled_scope_add name val : settled (scope_add name val).
Proof. unfold scope_add. repeat settled_step. Qed.
Lemma settled_stack_push f : settled (stack_push f).
Proof. unfold stack_push. repeat settled_step. Qed.
Lemma settled_stack_pop : settled stack_pop.
Proof. unfold stack_pop. repeat settled_step. Qed.
Lemma settled_first v : settled (first v).
Proof. unfold first. repeat settled_step. Qed.
Lemma settled_toBoolean_node v : settled (toBoolean_node C v).
Proof. unfold toBoolean_node. repeat settled_step. Qed.

Hint Resolve settled_scope_add settled_stack_push settled_stack_pop settled_first
  settled_toBoolean_node : settled.

Lemma settled_visit_slots o count : ∀ i, settled (visit_slots visit o i count).
Proof. induction count; intros i; simpl; repeat settled_step. Qed.

Lemma settled_visitRoot_loop budget blk : ∀ i, settled (visitRoot_loop visit budget blk i).
Proof. induction budget; intros i; simpl; repeat settled_step. Qed.

Lemma settled_invoke_forEach body count : ∀ i, settled (invoke_forEach body i count).
Proof. induction count; intros i; simpl; repeat settled_step. Qed.

Hint Resolve settled_visit_slots settled_visitRoot_loop settled_invoke_forEach : settled.

Lemma settled_invoke body : settled (invoke body).
Proof. unfold invoke. repeat settled_step. Qed.

Lemma settled_bind_params fn args ps : ∀ i, settled (bind_params C fuel fn args ps i).
Proof. induction ps; intros i; simpl; repeat settled_step. Qed.

Lemma settled_firsts vs : settled (firsts vs).
Proof. induction vs; simpl; repeat settled_step. Qed.

Lemma settled_push_all r vs : settled (push_all r vs).
Proof. induction vs; simpl; repeat settled_step. Qed.

Hint Resolve settled_invoke settled_bind_params settled_firsts settled_push_all : settled.

Lemma settled_invokeFunction fn args : settled (invokeFunction C fuel visit fn args).
Proof. unfold invokeFunction. repeat settled_step. Qed.

Lemma settled_invokeBuiltin f args : settled (invokeBuiltin f args).
Proof. unfold invokeBuiltin. repeat settled_step. Qed.

Lemma settled_visitBlock blk : settled (visitBlock visit blk).
Proof. unfold visitBlock. repeat settled_step. Qed.

Lemma settled_literalCall call args : settled (literalCall visit call args).
Proof. unfold literalCall. repeat settled_step. Qed.

Lemma settled_lookupFunction name : settled (lookupFunction C name).
Proof.
  intros st. unfold lookupFunction.
  destruct (Stack_lookup name (stack st)); [done|].
  destruct (functions st !! name); [done|].
  by destruct (bifs C !! name).
Qed.

Hint Resolve settled_invokeFunction settled_invokeBuiltin settled_visitBlock
  settled_literalCall settled_lookupFunction : settled.

Lemma settled_visitCall call name args : settled (visitCall C fuel visit call name args).
Proof. unfold visitCall. repeat settled_step. Qed.

Lemma settled_visitIdent ident name val : settled (visitIdent visit ident name val).
Proof. unfold visitIdent. repeat settled_step. Qed.

Lemma settled_isDefined n : settled (isDefined C n).
Proof. unfold isDefined. repeat settled_step. Qed.

Hint Resolve settled_isDefined : settled.

Lemma settled_visitBinOp op l r : settled (visitBinOp C visit op l r).
Proof. unfold visitBinOp. repeat settled_step. Qed.

Lemma settled_visitUnaryOp op e : settled (visitUnaryOp C visit op e).
Proof. unfold visitUnaryOp, assertType_Unit. repeat settled_step. Qed.

Lemma settled_visitTernary c t f : settled (visitTernary C visit c t f).
Proof. unfold visitTernary. repeat settled_step. Qed.

Lemma settled_visitProperty prop name e : settled (visitProperty visit prop name e).
Proof. unfold visitProperty. repeat settled_step. Qed.

Lemma settled_visitImport import path : settled (visitImport C import path).
Proof.
  unfold visitImport.
  apply settled_bind; [by auto with settled|]. intros r.
  apply settled_bind; [by auto with settled|]. intros i.
  apply settled_bind; [by auto with settled|]. intros relative.
  destruct (ends_with ".css" path); [by auto with settled|].
  destruct (truthy relative).
  - apply (settled_search (default "" relative)). intros ps. repeat settled_step.
  - repeat settled_step.
Qed.

Lemma settled_Visitor_visit l s : settled (Visitor_visit C fuel visit l s).
Proof.
  destruct s; simpl; auto using settled_visitCall, settled_visitIdent, settled_visitBinOp,
    settled_visitUnaryOp, settled_visitTernary, settled_visitProperty,
    settled_visitImport, settled_visitBlock, settled_ret.
  all: unfold visitGroup, visitSelector, visitExpression, visitRoot;
    repeat settled_step.
Qed.

Lemma settled_Evaluator_visit v : settled (Evaluator_visit C fuel visit v).
Proof.
  intros st. unfold Evaluator_visit.
  destruct v as [l|]; [|done].
  destruct (heap st !! l) as [o|]; [|done].
  pose proof (settled_Visitor_visit l (nodes.shp o) (set_lineno (nodes.lineno o) st)) as H.
  by destruct (Visitor_visit _ _ _ _ _ _).
Qed.
End settled_methods.

Lemma settled_visit C n : ∀ v, settled (visit C n v).
Proof.
  induction n as [|n IH]; intros v; simpl; [apply settled_timeout|].
  by apply settled_Evaluator_visit.
Qed.

(** X18: whether a dispatch returns or throws, [this.root], the external
    function table and [this.paths] are what they were: the directory that
    an import pushes for its search is popped before the search result is
    looked at, so also when the import fails. *)
Theorem visit_leaves_configuration (C : collaborators) (n : nat) (nd : value)
    (st st' : evaluator) :
  (∃ v, visit C n nd st = Ret v st') ∨ (∃ e, visit C n nd st = Throw e st') →
  root st' = root st ∧ functions st' = functions st ∧ paths st' = paths st.
Proof.
  intros H. pose proof (settled_visit C n nd st) as S.
  assert (E : configuration st' = configuration st).
  { destruct H as [[v H]|[e H]]; by rewrite H in S. }
  unfold configuration in E. by simplify_eq.
Qed.

(** X19: an evaluator fresh from its constructor, once [evaluate] returns,
    holds exactly one frame, the global frame of the root it was given; it
    is in statement mode, and its function table and search paths are those
    the constructor set up: the given paths followed by the directory of the
    file name, or of [.] when there is none. *)
Theorem evaluate_ends_in_global_frame (C : collaborators) (n : nat) (h : store)
    (r : value) (filename : option string) (fns : gmap string native) (ps : list string)
    (v : value) (st' : evaluator) :
  evaluate C n (new_Evaluator C h r filename fns ps) = Ret v st' →
  (∃ sc, stack st' = [Frame sc r])
  ∧ return_ st' = Datatypes.false
  ∧ root st' = r
  ∧ functions st' = fns
  ∧ paths st' = ps ++ [dirname C (if truthy filename then default "" filename else ".")].
Proof.
  intros H. unfold evaluate in H.
  set (st := new_Evaluator C h r filename fns ps) in *.
  pose proof (scoped_visit C n (root st) st) as S.
  pose proof (keeps_visit C n (root st) st) as K.
  pose proof (settled_visit C n (root st) st) as E.
  rewrite H in S, K, E. unfold configuration in E. simplify_eq.
  destruct S as [Ht Hh]. simpl in *.
  split; [|by repeat split].
  destruct (stack st') as [|[sc b] k]; simplify_eq/=. by exists sc.
Qed.

(** * The properties on concrete programs *)

Module Cases.
Import Example.

(** Witness of C1, in both modes. *)
Lemma invoke_return_or_splice_witness :
  get_nodes (heap (splice_state Datatypes.false)) (Some 5) = Some [Some 3; Some 4]
  ∧ invoke (Some 5) (splice_state Datatypes.true)
  = Ret (Some 4) (splice_state Datatypes.true)
  ∧ invoke (Some 5) (splice_state Datatypes.false)
  = Ret (Some nodes.null)
        (set_heap (set_nodes 7 ([Some 6] ++ [Some 3; Some 4])
                             (heap (splice_state Datatypes.false)))
                  (splice_state Datatypes.false)).
Proof.
  split; [vm_compute; reflexivity|]. split.
  - apply (invoke_return_or_splice (Some 5) (splice_state Datatypes.true) [Some 3; Some 4]);
    vm_compute; reflexivity.
  - apply (invoke_return_or_splice (Some 5) (splice_state Datatypes.false) [Some 3; Some 4])
    with (f := new_Frame (Some 7)); vm_compute; reflexivity.
Defined.

(** Counterexample to C1 as stated: the call [f()] is the statement at
    position 0 of the block (object 18), in statement position.  After the
    evaluation position 0 holds the null node, the statement [width 3] that
    followed the call comes next, and the two statements of the evaluated
    body (objects 23 and 26) stand behind it, at the end of the block: they
    are neither at the position of the call nor right behind it. *)
Lemma mixin_statements_not_at_call_position :
  let r := evaluate C0 20 (load mixin_prog) in
  let s := final r (load mixin_prog) in
  r = Ret (Some 20) s
  ∧ get_nodes (heap (load mixin_prog)) (Some 18) = Some [Some 14; Some 17]
  ∧ shape_of (heap s) (Some 14) = Some (nodes.Call "f" (Some 13))
  ∧ get_nodes (heap s) (Some 27) = Some [Some 23; Some 26]
  ∧ get_nodes (heap s) (Some 18) = Some [Some nodes.null; Some 17; Some 23; Some 26]
  ∧ ¬ statements_at [Some nodes.null; Some 17; Some 23; Some 26] 0 [Some 23; Some 26]
  ∧ ¬ statements_at [Some nodes.null; Some 17; Some 23; Some 26] 1 [Some 23; Some 26].
Proof.
  intros r s.
  split; [vm_compute; reflexivity|]. split; [vm_compute; reflexivity|].
  split; [vm_compute; reflexivity|]. split; [vm_compute; reflexivity|].
  split; [vm_compute; reflexivity|]. split.
  - intros H. specialize (H 0 (Some 23) eq_refl). discriminate H.
  - intros H. specialize (H 0 (Some 23) eq_refl). discriminate H.
Qed.

(** C2 at the failing input [f(x = 5) { -x }]: the default value of [x] is
    bound as it is, not copied, and the unary minus negates the bound unit in
    place.  With one call, [b = f()] yields -5 and the default value stored
    in the definition (object 3) has become -5.  With a call before it, the
    same [b = f()] yields 5: the second invocation sees what the first one
    did. *)
Lemma default_value_shared_between_invocations :
  let one := final (evaluate C0 20 (load (negate_prog [assign_call "b"])))
                 (load (negate_prog [assign_call "b"])) in
  let two := final (evaluate C0 20 (load (negate_prog [assign_call "a"; assign_call "b"])))
                 (load (negate_prog [assign_call "a"; assign_call "b"])) in
  shape_of (heap (load (negate_prog [assign_call "b"]))) (Some 3)
  = Some (nodes.Unit 5 "px")
  ∧ evaluate C0 20 (load (negate_prog [assign_call "b"])) = Ret (Some 15) one
  ∧ global_binding "b" one = Some (nodes.Unit (-5) "px")
  ∧ shape_of (heap one) (Some 3) = Some (nodes.Unit (-5) "px")
  ∧ evaluate C0 20 (load (negate_prog [assign_call "a"; assign_call "b"]))
  = Ret (Some 18) two
  ∧ global_binding "b" two = Some (nodes.Unit 5 "px").
Proof.
  intros one two.
  split; [vm_compute; reflexivity|]. split; [vm_compute; reflexivity|].
  split; [vm_compute; reflexivity|]. split; [vm_compute; reflexivity|].
  split; vm_compute; reflexivity.
Qed.


(** Witness of C4: [1 + 2]. *)
Lemma visitBinOp_coerce_operate_revisit_witness :
  let st := units_state in
  let st1 := set_lineno (Some 1) (set_return Datatypes.true st) in
  "+" ≠ "is defined"
  ∧ ignore "+" = Datatypes.false
  ∧ visit C0 5 (Some 3) (set_return Datatypes.true st) = Ret (Some 3) st1
  ∧ first (Some 3) st1 = Ret (Some 3) st1
  ∧ visit C0 5 (Some 4) st1 = Ret (Some 4) st1
  ∧ first (Some 4) st1 = Ret (Some 4) st1
  ∧ visitBinOp C0 (visit C0 5) "+" (Some 3) (Some 4) st =
      match coerce C0 (heap st1) 3 (Some 4) with
      | inl e => Throw e (set_return (return_ st) st1)
      | inr t =>
        let '(r', h3) := alloc t (heap st1) in
        match operate C0 h3 "+" 3 r' with
        | inl e => Throw e (set_heap h3 (set_return (return_ st) st1))
        | inr t' =>
          let '(res, h4) := alloc t' h3 in
          visit C0 5 res (set_heap h4 (set_return (return_ st) st1))
        end
      end.
Proof.
  intros st st1.
  assert (H1 : "+" ≠ "is defined") by discriminate.
  assert (H2 : ignore "+" = Datatypes.false) by reflexivity.
  assert (H3 : visit C0 5 (Some 3) (set_return Datatypes.true st) = Ret (Some 3) st1)
    by (vm_compute; reflexivity).
  assert (H4 : first (Some 3) st1 = Ret (Some 3) st1) by (vm_compute; reflexivity).
  assert (H5 : visit C0 5 (Some 4) st1 = Ret (Some 4) st1) by (vm_compute; reflexivity).
  assert (H6 : first (Some 4) st1 = Ret (Some 4) st1) by (vm_compute; reflexivity).
  repeat (split; [assumption|]).
  exact (visitBinOp_coerce_operate_revisit C0 (visit C0 5) "+" (Some 3) (Some 4)
           st st1 st1 (Some 3) (Some 4) 3 (Some 4) H1 H2 H3 H4 H5 H6).
Defined.

(** Witness of C5: the condition is the constant [true]; the assignment in
    the other branch does not happen. *)
Lemma visitTernary_taken_branch_only_witness :
  let st := ternary_state in
  let st1 := set_lineno None st in
  visit C0 5 (Some nodes.true) st = Ret (Some nodes.true) st1
  ∧ toBoolean C0 (heap st1) nodes.true = Datatypes.true
  ∧ visitTernary C0 (visit C0 5) (Some nodes.true) (Some 3) (Some 6) st
    = visit C0 5 (Some 3) st1
  ∧ Stack_lookup "x"
      (stack (final (visitTernary C0 (visit C0 5) (Some nodes.true) (Some 3) (Some 6) st) st))
    = None.
Proof.
  intros st st1.
  assert (H1 : visit C0 5 (Some nodes.true) st = Ret (Some nodes.true) st1)
    by (vm_compute; reflexivity).
  assert (H2 : toBoolean C0 (heap st1) nodes.true = Datatypes.true) by (vm_compute; reflexivity).
  split; [exact H1|]. split; [exact H2|]. split.
  - exact (proj1 (visitTernary_taken_branch_only C0 (visit C0 5) (Some nodes.true)
                    (Some 3) (Some 6) st st1 nodes.true H1) H2 (Some 6)).
  - vm_compute; reflexivity.
Defined.

(** Witness of C6: the error leaves the outer dispatch with the source of the
    inner node. *)
Lemma visit_decorates_once_witness :
  let st := failing_state in
  let r := visit C0 3 (Some 5) st in
  let e := Error ("invalid " +:+ double_quote +:+ "is defined" +:+ double_quote
                  +:+ " check on non-variable node") (Some "inner") (Some "trace") in
  heap st !! 5 = Some (nodes.Node (Some 1) (Some "outer") (nodes.Expression [Some 4]))
  ∧ r = Throw e (final r st)
  ∧ ∃ e0,
      Visitor_visit C0 2 (visit C0 2) 5 (nodes.Expression [Some 4]) (set_lineno (Some 1) st)
        = Throw e0 (final r st)
      ∧ message e = message e0
      ∧ str e = (if truthy (str e0) then str e0 else Some "outer")
      ∧ stylusStack e = (if truthy (stylusStack e0) then stylusStack e0
                         else Some (Stack_toString C0 (heap (final r st)) (stack (final r st))))
      ∧ (truthy (str e0) = Datatypes.true → truthy (stylusStack e0) = Datatypes.true → e = e0).
Proof.
  intros st r e.
  assert (H1 : heap st !! 5
               = Some (nodes.Node (Some 1) (Some "outer") (nodes.Expression [Some 4])))
    by (vm_compute; reflexivity).
  assert (H2 : r = Throw e (final r st)) by (vm_compute; reflexivity).
  split; [exact H1|]. split; [exact H2|].
  exact (visit_decorates_once C0 2 5 _ st (final r st) e H1 H2).
Defined.


(** Witness of C10. *)
Lemma visitCall_not_callable_witness :
  let st := unit_call_state in
  let st0 := set_return Datatypes.true (set_calling (Some "x") st) in
  let st1 := final (visit C0 5 (Some 6) st0) st0 in
  Stack_lookup "x" (stack st) = Some 4
  ∧ shape_of (heap st) (Some 4) = Some (nodes.Expression [Some 3])
  ∧ shape_of (heap st) (Some 3) = Some (nodes.Unit 5 "px")
  ∧ visit C0 5 (Some 6) st0 = Ret (Some 6) st1
  ∧ visitCall C0 5 (visit C0 5) 7 "x" (Some 6) st
    = Ret None (set_return (return_ st) st1).
Proof.
  intros st st0 st1.
  assert (H1 : Stack_lookup "x" (stack st) = Some 4) by (vm_compute; reflexivity).
  assert (H2 : shape_of (heap st) (Some 4) = Some (nodes.Expression [Some 3]))
    by (vm_compute; reflexivity).
  assert (H3 : shape_of (heap st) (Some 3) = Some (nodes.Unit 5 "px"))
    by (vm_compute; reflexivity).
  assert (H4 : visit C0 5 (Some 6) st0 = Ret (Some 6) st1) by (vm_compute; reflexivity).
  repeat (split; [assumption|]).
  apply (visitCall_not_callable C0 5 7 "x" (Some 6) st st1 4 (Some 6) H1); [|exact H4].
  rewrite H2. right. exists (nodes.Unit 5 "px"). split; [exact H3|reflexivity].
Defined.


(** Witness of C8. *)
Lemma invokeFunction_required_argument_witness :
  let st := required_state in
  shape_of (heap st) (Some 7) = Some (nodes.Function "f" (Some 4) (Some 6))
  ∧ nodes.constant 6 = Datatypes.false
  ∧ bounded (heap st) 10 (Some 6) = Datatypes.true
  ∧ get_nodes (heap st) (Some 4) = Some [Some 3]
  ∧ get_nodes (heap st) (Some 8) = Some []
  ∧ Forall (λ q, bounded (heap st) 10 q = Datatypes.true) [Some 3]
  ∧ unsatisfied (heap st) [] 0 (Some 3) "x"
  ∧ ∃ st', ∀ visit,
      invokeFunction C0 10 visit 7 (Some 8) st
      = Throw (required_argument_error "x" "f") st'.
Proof.
  intros st.
  assert (H1 : shape_of (heap st) (Some 7) = Some (nodes.Function "f" (Some 4) (Some 6)))
    by (vm_compute; reflexivity).
  assert (H2 : nodes.constant 6 = Datatypes.false) by reflexivity.
  assert (H3 : bounded (heap st) 10 (Some 6) = Datatypes.true) by (vm_compute; reflexivity).
  assert (H4 : get_nodes (heap st) (Some 4) = Some [Some 3]) by (vm_compute; reflexivity).
  assert (H5 : get_nodes (heap st) (Some 8) = Some []) by (vm_compute; reflexivity).
  assert (H6 : Forall (λ q, bounded (heap st) 10 q = Datatypes.true) [Some 3]).
  { constructor; [vm_compute; reflexivity|constructor]. }
  assert (H7 : unsatisfied (heap st) [] 0 (Some 3) "x").
  { exists 3, (Some nodes.null). repeat split; vm_compute; reflexivity. }
  repeat (split; [assumption|]).
  refine (invokeFunction_required_argument C0 10 7 (Some 8) st "f" (Some 4) 6
            [Some 3] [] 0 (Some 3) "x" H1 H2 H3 H4 H5 H6 _ eq_refl H7).
  intros j q Hj. inversion Hj.
Defined.

(** Witness of X1: the whole of the mixin program. *)
Lemma visit_binds_in_current_frame_only_witness :
  let st := load mixin_prog in
  let st' := final (visit C0 20 (Some 20) st) st in
  visit C0 20 (Some 20) st = Ret (Some 20) st'
  ∧ tail (stack st') = tail (stack st)
  ∧ block <$> head (stack st') = block <$> head (stack st)
  ∧ length (stack st') = length (stack st).
Proof.
  intros st st'.
  assert (H : visit C0 20 (Some 20) st = Ret (Some 20) st') by (vm_compute; reflexivity).
  split; [exact H|].
  exact (visit_binds_in_current_frame_only C0 20 (Some 20) st st' (Some 20) H).
Defined.

(** Witness of X3: the failing check of [failing_state]. *)
Lemma visit_keeps_every_object_witness :
  let st := failing_state in
  let st' := final (visit C0 5 (Some 5) st) st in
  (∃ e, visit C0 5 (Some 5) st = Throw e st')
  ∧ length (heap st) ≤ length (heap st')
  ∧ ∀ l o, heap st !! l = Some o →
      ∃ o', heap st' !! l = Some o'
            ∧ nodes.lineno o' = nodes.lineno o
            ∧ nodes.source o' = nodes.source o
            ∧ skeleton (nodes.shp o') = skeleton (nodes.shp o).
Proof.
  intros st st'.
  assert (H : ∃ e, visit C0 5 (Some 5) st = Throw e st')
    by (eexists; vm_compute; reflexivity).
  split; [exact H|].
  exact (visit_keeps_every_object C0 5 (Some 5) st st' (or_intror H)).
Defined.



(** Witness of X6: the operand is the constant [true]. *)
Lemma visitUnaryOp_operand_check_witness :
  let st := units_state in
  visit C0 5 (Some nodes.true) st = Ret (Some nodes.true) st
  ∧ first (Some nodes.true) st = Ret (Some nodes.true) st
  ∧ (∀ op, op ≠ "!" → instanceof (heap st) (Some nodes.true) is_Unit = Datatypes.false →
       ∃ err, visitUnaryOp C0 (visit C0 5) op (Some nodes.true) st = Throw err st)
  ∧ (∀ l, Some nodes.true = Some l →
       visitUnaryOp C0 (visit C0 5) "!" (Some nodes.true) st
       = Ret (Some (nodes.of_bool (negb (toBoolean C0 (heap st) l)))) st).
Proof.
  intros st.
  assert (H1 : visit C0 5 (Some nodes.true) st = Ret (Some nodes.true) st)
    by (vm_compute; reflexivity).
  assert (H2 : first (Some nodes.true) st = Ret (Some nodes.true) st)
    by (vm_compute; reflexivity).
  do 2 (split; [assumption|]).
  exact (visitUnaryOp_operand_check C0 (visit C0 5) (Some nodes.true) (Some nodes.true)
           (Some nodes.true) st st H1 H2).
Defined.

(** Witness of X8: [1 || 2] with a coercion that always fails. *)
Lemma visitBinOp_logical_without_coercion_witness :
  let st := units_state in
  let st1 := set_lineno (Some 1) (set_return Datatypes.true st) in
  ignore "||" = Datatypes.true
  ∧ visit C1 5 (Some 3) (set_return Datatypes.true st) = Ret (Some 3) st1
  ∧ first (Some 3) st1 = Ret (Some 3) st1
  ∧ visit C1 5 (Some 4) st1 = Ret (Some 4) st1
  ∧ first (Some 4) st1 = Ret (Some 4) st1
  ∧ coerce C1 (heap st1) 3 (Some 4) = inl (new_Error "no coercion")
  ∧ visitBinOp C1 (visit C1 5) "||" (Some 3) (Some 4) st =
      match operate C1 (heap st1) "||" 3 (Some 4) with
      | inl e => Throw e (set_return (return_ st) st1)
      | inr t =>
        let '(res, h3) := alloc t (heap st1) in
        visit C1 5 res (set_heap h3 (set_return (return_ st) st1))
      end.
Proof.
  intros st st1.
  assert (H1 : ignore "||" = Datatypes.true) by reflexivity.
  assert (H2 : visit C1 5 (Some 3) (set_return Datatypes.true st) = Ret (Some 3) st1)
    by (vm_compute; reflexivity).
  assert (H3 : first (Some 3) st1 = Ret (Some 3) st1) by (vm_compute; reflexivity).
  assert (H4 : visit C1 5 (Some 4) st1 = Ret (Some 4) st1) by (vm_compute; reflexivity).
  assert (H5 : first (Some 4) st1 = Ret (Some 4) st1) by (vm_compute; reflexivity).
  assert (H6 : coerce C1 (heap st1) 3 (Some 4) = inl (new_Error "no coercion"))
    by reflexivity.
  do 6 (split; [assumption|]).
  exact (visitBinOp_logical_without_coercion C1 (visit C1 5) "||" (Some 3) (Some 4)
           st st1 st1 (Some 3) (Some 4) 3 (Some 4) H1 H2 H3 H4 H5).
Defined.

(** Witness of X9: [f()] where [f] is bound to a function definition in the
    global frame and also known to the external function table. *)
Lemma visitCall_lexical_function_first_witness :
  let st := shadow_state in
  let st0 := set_return Datatypes.true (set_calling (Some "f") st) in
  let st1 := final (visit C1 10 (Some 7) st0) st0 in
  Stack_lookup "f" (stack st) = Some 6
  ∧ match shape_of (heap st) (Some 6) with
    | Some (nodes.Expression ns) => index ns 0
    | _ => Some 6
    end = Some 6
  ∧ instanceof (heap st) (Some 6) is_Function = Datatypes.true
  ∧ functions st !! "f" = Some external_g
  ∧ visit C1 10 (Some 7) st0 = Ret (Some 7) st1
  ∧ visitCall C1 10 (visit C1 10) 8 "f" (Some 7) st
    = invokeFunction C1 10 (visit C1 10) 6 (Some 7) (set_return (return_ st) st1).
Proof.
  intros st st0 st1.
  assert (H1 : Stack_lookup "f" (stack st) = Some 6) by (vm_compute; reflexivity).
  assert (H2 : match shape_of (heap st) (Some 6) with
               | Some (nodes.Expression ns) => index ns 0
               | _ => Some 6
               end = Some 6) by (vm_compute; reflexivity).
  assert (H3 : instanceof (heap st) (Some 6) is_Function = Datatypes.true)
    by (vm_compute; reflexivity).
  assert (H4 : functions st !! "f" = Some external_g) by (vm_compute; reflexivity).
  assert (H5 : visit C1 10 (Some 7) st0 = Ret (Some 7) st1) by (vm_compute; reflexivity).
  do 5 (split; [assumption|]).
  exact (visitCall_lexical_function_first C1 10 8 "f" (Some 7) st st1 6 6 (Some 7)
           H1 H2 H3 H5).
Defined.


(** Witness of X11: a native function that returns its second argument,
    called on [1 2] in value-returning mode, yields the unit [2] (object 4)
    itself. *)
Lemma invokeBuiltin_returns_result_witness :
  let st := splice_state Datatypes.true in
  return_ st = Datatypes.true
  ∧ get_nodes (heap st) (Some 5) = Some [Some 3; Some 4]
  ∧ firsts [Some 3; Some 4] st = Ret [Some 3; Some 4] st
  ∧ second_argument (heap st) [Some 3; Some 4] = inr (Ref (Some 4))
  ∧ instanceof (heap st) (Some 4) is_Expression = Datatypes.false
  ∧ invokeBuiltin second_argument (Some 5) st
    = Ret (Some 4)
          (set_heap (heap st ++ [nodes.Node None None (nodes.Expression [Some 4])]) st).
Proof.
  intros st.
  assert (H1 : return_ st = Datatypes.true) by reflexivity.
  assert (H2 : get_nodes (heap st) (Some 5) = Some [Some 3; Some 4])
    by (vm_compute; reflexivity).
  assert (H3 : firsts [Some 3; Some 4] st = Ret [Some 3; Some 4] st)
    by (vm_compute; reflexivity).
  assert (H4 : second_argument (heap st) [Some 3; Some 4] = inr (Ref (Some 4)))
    by reflexivity.
  assert (H5 : instanceof (heap st) (Some 4) is_Expression = Datatypes.false)
    by (vm_compute; reflexivity).
  do 5 (split; [assumption|]).
  exact (proj1 (proj1 (invokeBuiltin_returns_result second_argument (Some 5) st
                         [Some 3; Some 4] [Some 3; Some 4] H1 H2 H3)
                      (Ref (Some 4)) (Some 4) (heap st) H4 eq_refl) H5).
Defined.

(** Witness of X12: the property [f 2] while [f] is being called. *)
Lemma visitProperty_plain_witness :
  let st := set_calling (Some "f") shadow_state in
  let st0 := set_return Datatypes.true st in
  let st1 := final (visit C1 10 (Some 12) st0) st0 in
  instanceof (heap st) (Stack_lookup "f" (stack st)) is_Function = Datatypes.true
  ∧ calling st = Some "f"
  ∧ visit C1 10 (Some 12) st0 = Ret (Some 12) st1
  ∧ visitProperty (visit C1 10) 13 "f" (Some 12) st
    = Ret (Some 13)
          (set_return (return_ st)
             (set_heap (update 13 (set_expr (Some 12)) (heap st1)) st1)).
Proof.
  intros st st0 st1.
  assert (H1 : instanceof (heap st) (Stack_lookup "f" (stack st)) is_Function
               = Datatypes.true) by (vm_compute; reflexivity).
  assert (H2 : calling st = Some "f") by reflexivity.
  assert (H3 : visit C1 10 (Some 12) st0 = Ret (Some 12) st1) by (vm_compute; reflexivity).
  do 3 (split; [assumption|]).
  exact (visitProperty_plain (visit C1 10) 13 "f" (Some 12) (Some 12) st st1
           (or_intror H2) H3).
Defined.

(** Witness of X13: the property [f 2] outside of any call. *)
Lemma visitProperty_calls_mixin_witness :
  let st := shadow_state in
  instanceof (heap st) (Stack_lookup "f" (stack st)) is_Function = Datatypes.true
  ∧ calling st ≠ Some "f"
  ∧ let call := length (heap st) in
    let st0 := set_heap (heap st ++ [nodes.Node None None (nodes.Call "f" (Some 12))])
                        (set_calling (Some "f") st) in
    visitProperty (visit C1 10) 13 "f" (Some 12) st
    = match visit C1 10 (Some call) st0 with
      | Ret r s => Ret r (set_calling None s)
      | other => other
      end.
Proof.
  intros st.
  assert (H1 : instanceof (heap st) (Stack_lookup "f" (stack st)) is_Function
               = Datatypes.true) by (vm_compute; reflexivity).
  assert (H2 : calling st ≠ Some "f") by discriminate.
  do 2 (split; [assumption|]).
  exact (visitProperty_calls_mixin (visit C1 10) 13 "f" (Some 12) st H1 H2).
Defined.

(** Witness of X14. *)
Lemma visitImport_css_untouched_witness :
  ends_with ".css" "reset.css" = Datatypes.true
  ∧ visitImport C0 3 "reset.css" import_state = Ret (Some 3) import_state.
Proof.
  assert (H1 : ends_with ".css" "reset.css" = Datatypes.true) by reflexivity.
  split; [exact H1|].
  exact (visitImport_css_untouched C0 3 "reset.css" import_state H1).
Defined.

(** Witness of X15: [f(x, y = 5)] called on [(7)]. *)
Lemma bind_params_binds_each_parameter_witness :
  let st := defaults_state in
  shape_of (heap st) (Some 10) = Some (nodes.Function "f" (Some 7) (Some 9))
  ∧ get_nodes (heap st) (Some 12) = Some [Some 11]
  ∧ Forall (λ q, bounded (heap st) 10 q = Datatypes.true) [Some 3; Some 6]
  ∧ stack st = [new_Frame (Some 13)]
  ∧ satisfied (heap st) [Some 11] 0 (Some 3)
  ∧ satisfied (heap st) [Some 11] 1 (Some 6)
  ∧ ∃ st' sc,
      bind_params C0 10 10 (Some 12) [Some 3; Some 6] 0 st = Ret tt st'
      ∧ heap st `prefix_of` heap st'
      ∧ stack st' = [Frame sc (block (new_Frame (Some 13)))]
      ∧ (∀ j l nm d, [Some 3; Some 6] !! j = Some (Some l) →
           shape_of (heap st) (Some l) = Some (nodes.Ident nm d) →
           Some nm ∉ param_name (heap st) <$> drop (S j) [Some 3; Some 6] →
           sc !! nm = Some (bound_value [Some 11] (0 + j) d))
      ∧ (∀ nm, Some nm ∉ param_name (heap st) <$> [Some 3; Some 6] →
           sc !! nm = scope (new_Frame (Some 13)) !! nm).
Proof.
  intros st.
  assert (H1 : shape_of (heap st) (Some 10) = Some (nodes.Function "f" (Some 7) (Some 9)))
    by (vm_compute; reflexivity).
  assert (H2 : get_nodes (heap st) (Some 12) = Some [Some 11]) by (vm_compute; reflexivity).
  assert (H3 : Forall (λ q, bounded (heap st) 10 q = Datatypes.true) [Some 3; Some 6]).
  { constructor; [vm_compute; reflexivity|].
    constructor; [vm_compute; reflexivity|constructor]. }
  assert (H4 : stack st = [new_Frame (Some 13)]) by (vm_compute; reflexivity).
  assert (H5 : satisfied (heap st) [Some 11] 0 (Some 3)).
  { exists 3, "x", (Some nodes.null). split; [reflexivity|]. split; [reflexivity|].
    split; [vm_compute; reflexivity|]. right. exists (nodes.Unit 7 "px").
    split; [vm_compute; reflexivity|reflexivity]. }
  assert (H6 : satisfied (heap st) [Some 11] 1 (Some 6)).
  { exists 6, "y", (Some 5). split; [reflexivity|]. split; [reflexivity|].
    split; [vm_compute; reflexivity|]. right. exists (nodes.Expression [Some 4]).
    split; [vm_compute; reflexivity|reflexivity]. }
  do 6 (split; [assumption|]).
  refine (bind_params_binds_each_parameter C0 10 (heap st) 10 "f" (Some 7) (Some 9)
            (Some 12) [Some 11] [Some 3; Some 6] H1 H2 H3 0 st (new_Frame (Some 13)) []
            (reflexivity _) H4 _).
  intros [|[|j]] q Hj; [injection Hj as <-; exact H5|injection Hj as <-; exact H6|].
  inversion Hj.
Defined.

(** Witness of X16: the unit [1] (object 3). *)
Lemma visit_leaf_and_container_witness :
  let st := units_state in
  let o := nodes.Node (Some 1) (Some "unit") (nodes.Unit 1 "px") in
  heap st !! 3 = Some o
  ∧ (leaf (nodes.shp o) = Datatypes.true →
       visit C0 1 (Some 3) st = Ret (Some 3) (set_lineno (nodes.lineno o) st))
  ∧ (container (nodes.shp o) = Datatypes.true →
       ∀ v st', visit C0 1 (Some 3) st = Ret v st' → v = Some 3).
Proof.
  intros st o.
  assert (H1 : heap st !! 3 = Some o) by (vm_compute; reflexivity).
  split; [exact H1|].
  exact (visit_leaf_and_container C0 0 3 o st H1).
Defined.

(** Witness of X17: the reference [x] (object 3) in an empty environment. *)
Lemma visit_reference_witness :
  let st := required_state in
  heap st !! 3 = Some (nodes.Node (Some 1) (Some "x") (nodes.Ident "x" (Some nodes.null)))
  ∧ (Stack_lookup "x" (stack st) = None →
       visit C0 1 (Some 3) st = Ret (Some 3) (set_lineno (Some 1) st))
  ∧ (∀ b v st', Stack_lookup "x" (stack st) = Some b →
       visit C0 0 (Some b) (set_lineno (Some 1) st) = Ret v st' →
       visit C0 1 (Some 3) st = Ret v st').
Proof.
  intros st.
  assert (H1 : heap st !! 3
               = Some (nodes.Node (Some 1) (Some "x") (nodes.Ident "x" (Some nodes.null))))
    by (vm_compute; reflexivity).
  split; [exact H1|].
  exact (visit_reference C0 0 3 (Some 1) (Some "x") "x" st H1).
Defined.

(** Witness of X2: the block [3] of [splice_state]. *)
Lemma block_and_call_leave_no_frame_witness :
  let st := splice_state Datatypes.false in
  let st' := final (visitBlock (visit C0 5) 7 st) st in
  visitBlock (visit C0 5) 7 st = Ret (Some 7) st'
  ∧ stack st' = stack st.
Proof.
  intros st st'.
  assert (H : visitBlock (visit C0 5) 7 st = Ret (Some 7) st') by (vm_compute; reflexivity).
  split; [exact H|].
  exact (proj1 (block_and_call_leave_no_frame C0 5 st st' (Some 7)) 7 H).
Defined.

(** Witness of X7: [x is defined] where [x] is not bound. *)
Lemma is_defined_does_not_evaluate_witness :
  let st := required_state in
  shape_of (heap st) (Some 3) = Some (nodes.Ident "x" (Some nodes.null))
  ∧ let b := bool_decide (is_Some (Stack_lookup "x" (stack st))) in
    visitBinOp C0 (visit C0 5) "is defined" (Some 3) None st
    = Ret (Some (length (heap st)))
          (set_heap (heap st ++ [nodes.Node None None (nodes.Boolean b)]) st).
Proof.
  intros st.
  assert (H : shape_of (heap st) (Some 3) = Some (nodes.Ident "x" (Some nodes.null)))
    by (vm_compute; reflexivity).
  split; [exact H|].
  exact (proj1 (is_defined_does_not_evaluate C0 (visit C0 5) (Some 3) None st)
           "x" (Some nodes.null) H).
Defined.

(** Witness of X18: an import while another file is being imported. *)
Lemma visit_leaves_configuration_witness :
  let st := set_importPath (Some "/lib") import_state in
  let st' := final (visit C0 5 (Some 3) st) st in
  (∃ v, visit C0 5 (Some 3) st = Ret v st')
  ∧ root st' = root st ∧ functions st' = functions st ∧ paths st' = paths st.
Proof.
  intros st st'.
  assert (H : ∃ v, visit C0 5 (Some 3) st = Ret v st')
    by (eexists; vm_compute; reflexivity).
  split; [exact H|].
  exact (visit_leaves_configuration C0 5 (Some 3) st st' (or_introl H)).
Defined.

(** Witness of X19: the mixin program. *)
Lemma evaluate_ends_in_global_frame_witness :
  let h := (alloc mixin_prog initial_store).2 in
  let st := new_Evaluator C0 h (Some 20) None ∅ [] in
  let st' := final (evaluate C0 20 st) st in
  evaluate C0 20 st = Ret (Some 20) st'
  ∧ (∃ sc, stack st' = [Frame sc (Some 20)])
  ∧ return_ st' = Datatypes.false
  ∧ root st' = Some 20
  ∧ functions st' = ∅
  ∧ paths st' = [] ++ [dirname C0 (if truthy None then default "" None else ".")].
Proof.
  intros h st st'.
  assert (H : evaluate C0 20 st = Ret (Some 20) st') by (vm_compute; reflexivity).
  split; [exact H|].
  exact (evaluate_ends_in_global_frame C0 20 h (Some 20) None ∅ [] (Some 20) st' H).
Defined.

End Cases.
